(** * Safety Companion chat widget: redaction and canned-response pipeline

    A shallow embedding of [src/components/chat-interface.tsx].

    - [JS]: the part of the JavaScript runtime the component calls:
      strings as UTF-16 code units, [trim], [toLowerCase], [includes],
      number printing, completions (normal or thrown), and a backtracking
      matcher for the regular-expression subset of the component's two
      literals together with the global [replace] loop;
    - [sanitizeInput], [getMockResponse]: the two pure functions;
    - [handleSend], [speak], [clearHistory] and the timer callback: the
      event handlers, as programs over an explicit component state. *)

From Stdlib Require Import Ascii String.
From Stdlib Require Import List NArith Arith Bool Lia.
From Stdlib Require Import DecimalString DecimalN.
Import ListNotations.


(* ================================================================== *)
(** * Part I: the embedding *)
(* ================================================================== *)

(** ** The JavaScript runtime the component relies on *)

Module JS.

(** A JavaScript string is a sequence of UTF-16 code units. *)
Abbreviation codeUnit := N (only parsing).
Abbreviation jsstring := (list N) (only parsing).

Definition charCode (a : ascii) : codeUnit := N_of_ascii a.

(** Source literals are written in this file as UTF-8 text; [utf16]
    decodes such a literal into the code units the engine sees
    (supplementary-plane code points become surrogate pairs). *)
Fixpoint utf16_of_bytes (bs : list N) : jsstring :=
  match bs with
  | [] => []
  | b0 :: t =>
    if (b0 <? 128)%N then b0 :: utf16_of_bytes t
    else if (b0 <? 224)%N then
      match t with
      | b1 :: t1 =>
        N.lor (N.shiftl (N.land b0 31) 6) (N.land b1 63) :: utf16_of_bytes t1
      | _ => []
      end
    else if (b0 <? 240)%N then
      match t with
      | b1 :: b2 :: t2 =>
        N.lor (N.shiftl (N.land b0 15) 12)
              (N.lor (N.shiftl (N.land b1 63) 6) (N.land b2 63))
          :: utf16_of_bytes t2
      | _ => []
      end
    else
      match t with
      | b1 :: b2 :: b3 :: t3 =>
        let cp := N.lor (N.shiftl (N.land b0 7) 18)
                   (N.lor (N.shiftl (N.land b1 63) 12)
                     (N.lor (N.shiftl (N.land b2 63) 6) (N.land b3 63))) in
        let v := (cp - 65536)%N in
        (55296 + N.shiftr v 10)%N :: (56320 + N.land v 1023)%N
          :: utf16_of_bytes t3
      | _ => []
      end
  end.

Definition utf16 (s : string) : jsstring :=
  utf16_of_bytes (map N_of_ascii (list_ascii_of_string s)).

Definition jsstring_eqb (a b : jsstring) : bool :=
  if list_eq_dec N.eq_dec a b then true else false.

(** *** Completions: a call returns normally or throws *)

Inductive JSError : Type := TypeError.

Inductive Completion (A : Type) : Type :=
| Normal (a : A)
| Throw (e : JSError).
Arguments Normal {A} a.
Arguments Throw {A} e.

(** *** String methods *)

(** [Number.prototype.toString] on a non-negative integer below [1e21]
    (every time value is): its decimal digits. *)
Definition numberToString (n : N) : jsstring :=
  utf16 (NilEmpty.string_of_uint (N.to_uint n)).

(** WhiteSpace and LineTerminator code points, as [trim] strips them. *)
Definition isWhiteSpace (c : codeUnit) : bool :=
  existsb (N.eqb c)
    [9; 10; 11; 12; 13; 32; 160; 5760; 8232; 8233; 8239; 8287; 12288; 65279]%N
  || ((8192 <=? c)%N && (c <=? 8202)%N).

Fixpoint trimStart (s : jsstring) : jsstring :=
  match s with
  | c :: t => if isWhiteSpace c then trimStart t else s
  | [] => []
  end.

Definition trim (s : jsstring) : jsstring :=
  rev (trimStart (rev (trimStart s))).

(** [s.includes(search)]: [search] occurs in [s] as a run of code units. *)
Fixpoint startsWith (s search : jsstring) : bool :=
  match search, s with
  | [], _ => true
  | p :: search', c :: s' => (c =? p)%N && startsWith s' search'
  | _ :: _, [] => false
  end.

Fixpoint includes (s search : jsstring) : bool :=
  startsWith s search
  || match s with
     | [] => false
     | _ :: t => includes t search
     end.

(** [toLowerCase] maps each code point by the Unicode default case
    conversion and concatenates the results.  An ASCII code unit maps to
    its ASCII lower case whatever surrounds it; the image of any other
    code unit comes from the Unicode tables of the runtime and may depend
    on the text around it (final sigma, surrogate pairs), so it is a
    parameter: [tbl before c after] is what the code unit [c] contributes
    when it stands between [rev before] and [after]. *)
Definition CaseTable := jsstring -> codeUnit -> jsstring -> jsstring.

Definition asciiLower (c : codeUnit) : codeUnit :=
  if (charCode "A" <=? c)%N && (c <=? charCode "Z")%N then (c + 32)%N else c.

Fixpoint lowerFrom (tbl : CaseTable) (before s : jsstring) : jsstring :=
  match s with
  | [] => []
  | c :: t =>
    (if (c <? 128)%N then [asciiLower c] else tbl before c t)
      ++ lowerFrom tbl (c :: before) t
  end.

Definition toLowerCase (tbl : CaseTable) (s : jsstring) : jsstring :=
  lowerFrom tbl [] s.

(** What the proofs below need of the Unicode tables: the code units of
    the Devanagari block (U+0900..U+097F) have no case mapping. *)
Definition DevanagariUncased (tbl : CaseTable) : Prop :=
  forall before c after,
    (2304 <= c <= 2431)%N -> tbl before c after = [c].

(** An excerpt of the Unicode tables, enough to run the model: Latin-1,
    Greek and Cyrillic capitals, U+0130 (which lowers to two code units)
    and the Kelvin sign (which lowers to an ASCII letter). *)
Definition excerptCaseTable : CaseTable :=
  fun _ c _ =>
    if (192 <=? c)%N && (c <=? 222)%N && negb (c =? 215)%N then [(c + 32)%N]
    else if (c =? 304)%N then [105; 775]%N
    else if (913 <=? c)%N && (c <=? 937)%N && negb (c =? 930)%N then [(c + 32)%N]
    else if (1040 <=? c)%N && (c <=? 1071)%N then [(c + 32)%N]
    else if (c =? 8490)%N then [107]%N
    else [c].

(** *** Character classes *)

(** The members of a bracketed class: a range [lo-hi] or a single
    character. *)
Inductive ClassRange : Type :=
| CharRange (lo hi : ascii)
| CharOne (c : ascii).

Definition CharClass := list ClassRange.

Definition inClassRange (r : ClassRange) (c : codeUnit) : bool :=
  match r with
  | CharRange lo hi => (charCode lo <=? c)%N && (c <=? charCode hi)%N
  | CharOne a => (c =? charCode a)%N
  end.

Definition classMatches (cls : CharClass) (c : codeUnit) : bool :=
  existsb (fun r => inClassRange r c) cls.

(** [\d] and [\w] (no [u] or [i] flag: ASCII only). *)
Definition digitClass : CharClass := [CharRange "0" "9"].
Definition wordClass : CharClass :=
  [CharRange "a" "z"; CharRange "A" "Z"; CharRange "0" "9"; CharOne "_"].

(** *** Patterns

    The subset of the ECMAScript pattern grammar used by the component:
    a single alternative whose terms are either the assertion [\b] or an
    atom (a character class, an escape such as [\d], or a literal
    character) with a greedy quantifier [{min,max}]; an unquantified atom
    is [{1,1}], [+] is [{1,}]. *)
Inductive Term : Type :=
| WordBoundary
| Atom (cls : CharClass) (min : nat) (max : option nat).

Definition Pattern := list Term.

(** *** The backtracking matcher

    A match state is the input still to be read together with the code
    unit just before it (what [IsWordChar(e - 1)] inspects); [None] for
    the previous code unit means the start of the input. *)
Definition MatchState : Type := option codeUnit * jsstring.
Definition Continuation := MatchState -> option MatchState.

Definition isWordChar (c : option codeUnit) : bool :=
  match c with
  | Some c => classMatches wordClass c
  | None => false
  end.

(** RepeatMatcher of the language specification for a one-character atom:
    with [max = 0] call the continuation; otherwise read one more
    character and recurse with [min - 1] and [max - 1]; when that fails
    and [min] is already satisfied, fall back to the continuation
    (greedy). *)
Fixpoint repeatMatcher (cls : CharClass) (min : nat) (max : option nat)
    (k : Continuation) (prev : option codeUnit) (s : jsstring)
    {struct s} : option MatchState :=
  match max with
  | Some 0 => k (prev, s)
  | _ =>
    let stop := match min with 0 => k (prev, s) | S _ => None end in
    match s with
    | c :: s' =>
      if classMatches cls c then
        match repeatMatcher cls (Nat.pred min) (option_map Nat.pred max)
                k (Some c) s' with
        | Some r => Some r
        | None => stop
        end
      else stop
    | [] => stop
    end
  end.

Fixpoint matchPattern (p : Pattern) (k : Continuation) (st : MatchState)
    : option MatchState :=
  match p with
  | [] => k st
  | WordBoundary :: p' =>
    if xorb (isWordChar (fst st)) (isWordChar (hd_error (snd st)))
    then matchPattern p' k st
    else None
  | Atom cls min max :: p' =>
    repeatMatcher cls min max (matchPattern p' k) (fst st) (snd st)
  end.

(** One attempt of the pattern at the current position. *)
Definition matchAt (p : Pattern) (st : MatchState) : option MatchState :=
  matchPattern p (fun st' => Some st') st.

(** *** [String.prototype.replace] with a global pattern

    The loop of [RegExp.prototype[Symbol.replace]] for a pattern with the
    [g] flag and a replacement text without [$]: starting from
    [lastIndex = 0], find the leftmost position at which the pattern
    matches, emit the text skipped and the replacement, and go on after
    the match (one code unit further after an empty match). *)
Fixpoint replaceLoop (fuel : nat) (p : Pattern) (repl : jsstring)
    (prev : option codeUnit) (s : jsstring) : jsstring :=
  match fuel with
  | 0 => s
  | S fuel' =>
    match matchAt p (prev, s) with
    | Some (prev', s') =>
      if length s' <? length s
      then repl ++ replaceLoop fuel' p repl prev' s'
      else match s with
           | [] => repl
           | c :: t => repl ++ c :: replaceLoop fuel' p repl (Some c) t
           end
    | None =>
      match s with
      | [] => []
      | c :: t => c :: replaceLoop fuel' p repl (Some c) t
      end
    end
  end.

(** The loop positioned after the code unit [prev], with the fuel that
    always suffices (every round consumes at least one code unit). *)
Definition replaceFrom (p : Pattern) (repl : jsstring)
    (prev : option codeUnit) (s : jsstring) : jsstring :=
  replaceLoop (S (length s)) p repl prev s.

Definition replace (s : jsstring) (p : Pattern) (repl : jsstring) : jsstring :=
  replaceFrom p repl None s.

End JS.

Import JS.

(** ** The Redactor: [sanitizeInput] *)

(** [/[a-zA-Z0-9._%+-]+@[a-zA-Z0-9.-]+\.[a-zA-Z]{2,}/g] *)
Definition emailLocalClass : CharClass :=
  [CharRange "a" "z"; CharRange "A" "Z"; CharRange "0" "9";
   CharOne "."; CharOne "_"; CharOne "%"; CharOne "+"; CharOne "-"].
Definition emailDomainClass : CharClass :=
  [CharRange "a" "z"; CharRange "A" "Z"; CharRange "0" "9";
   CharOne "."; CharOne "-"].
Definition letterClass : CharClass :=
  [CharRange "a" "z"; CharRange "A" "Z"].

Definition emailRegex : Pattern :=
  [ Atom emailLocalClass 1 None;
    Atom [CharOne "@"] 1 (Some 1);
    Atom emailDomainClass 1 None;
    Atom [CharOne "."] 1 (Some 1);
    Atom letterClass 2 None ].

(** [/\b\d{10}\b/g] *)
Definition phoneRegex : Pattern :=
  [ WordBoundary; Atom digitClass 10 (Some 10); WordBoundary ].

Definition EMAIL_REDACTED : jsstring :=
  Eval vm_compute in utf16 "[EMAIL REDACTED]".
Definition PHONE_REDACTED : jsstring :=
  Eval vm_compute in utf16 "[PHONE REDACTED]".

(** The two substitutions of [sanitizeInput], in source order. *)
Definition redactEmails (text : jsstring) : jsstring :=
  replace text emailRegex EMAIL_REDACTED.
Definition redactPhones (text : jsstring) : jsstring :=
  replace text phoneRegex PHONE_REDACTED.

Definition sanitizeInput (text : jsstring) : jsstring :=
  let cleaned := redactEmails text in
  let cleaned := redactPhones cleaned in
  cleaned.

(** ** The ResponseResolver: [getMockResponse] *)

Record Bundle : Type := mkBundle {
  default : jsstring;
  password : jsstring;
  privacy : jsstring
}.

(** The three bundles of the [responses] object literal. *)
Definition enUS : Bundle :=
  {| default := utf16 "I can help you with digital safety. Ask me about passwords, phishing, or privacy settings.";
     password := utf16 "To create a strong password, use at least 12 characters, mix uppercase, lowercase, numbers, and symbols. Avoid common words.";
     privacy := utf16 "Check your privacy settings regularly. Turn off location services for apps that don't need it." |}.

Definition hiIN : Bundle :=
  {| default := utf16 "मैं आपकी डिजिटल सुरक्षा में मदद कर सकता हूं। मुझसे पासवर्ड, फ़िशिंग या गोपनीयता सेटिंग्स के बारे में पूछें।";
     password := utf16 "एक मजबूत पासवर्ड बनाने के लिए, कम से कम 12 अक्षर, बड़े और छोटे अक्षर, संख्या और प्रतीकों का उपयोग करें।";
     privacy := utf16 "अपनी गोपनीयता सेटिंग्स की नियमित जांच करें। उन ऐप्स के लिए स्थान सेवाएं बंद करें जिन्हें इसकी आवश्यकता नहीं है।" |}.

Definition mrIN : Bundle :=
  {| default := utf16 "मी तुम्हाला डिजिटल सुरक्षेत मदत करू शकतो. मला पासवर्ड, फिशिंग किंवा गोपनीयता सेटिंग्ज बद्दल विचारा.";
     password := utf16 "मजबूत पासवर्ड तयार करण्यासाठी, किमान 12 अक्षरे, मोठी आणि लहान अक्षरे, क्रमांक आणि चिन्हे वापरा.";
     privacy := utf16 "आपल्या गोपनीयता सेटिंग्ज नियमित तपासा. ज्या अ‍ॅप्सना गरज नाही त्यांच्यासाठी लोकेशन सेवा बंद करा." |}.

(** The own properties of [responses]. *)
Definition responses : list (jsstring * Bundle) :=
  [ (utf16 "en-US", enUS); (utf16 "hi-IN", hiIN); (utf16 "mr-IN", mrIN) ].

(** The values the resolver handles: [undefined], a string, one of the
    bundles, or a built-in object or function found on the prototype. *)
Inductive Value : Type :=
| VUndefined
| VString (s : jsstring)
| VBundle (b : Bundle)
| VBuiltin (name : jsstring).

(** An object literal inherits from [Object.prototype]; these are its
    property names in a browser, each bound to a function (or, for
    [__proto__], to the prototype object itself). *)
Definition objectPrototypeKeys : list jsstring :=
  map utf16
    [ "constructor"; "hasOwnProperty"; "isPrototypeOf";
      "propertyIsEnumerable"; "toLocaleString"; "toString"; "valueOf";
      "__proto__"; "__defineGetter__"; "__defineSetter__";
      "__lookupGetter__"; "__lookupSetter__" ]%string.

Fixpoint ownProperty (o : list (jsstring * Bundle)) (key : jsstring)
    : option Bundle :=
  match o with
  | [] => None
  | (k, b) :: o' => if jsstring_eqb k key then Some b else ownProperty o' key
  end.

(** [responses[key]]: an own property, else one inherited from
    [Object.prototype], else [undefined]. *)
Definition getProperty (o : list (jsstring * Bundle)) (key : jsstring)
    : Value :=
  match ownProperty o key with
  | Some b => VBundle b
  | None =>
    if existsb (jsstring_eqb key) objectPrototypeKeys
    then VBuiltin key
    else VUndefined
  end.

Definition toBoolean (v : Value) : bool :=
  match v with
  | VUndefined => false
  | VString s => negb (jsstring_eqb s [])
  | VBundle _ | VBuiltin _ => true
  end.

(** [a || b] *)
Definition orElse (a b : Value) : Value :=
  if toBoolean a then a else b.

(** [langResponses.password] and its siblings: the field of a bundle;
    [undefined] on a value that has no such property (no built-in of
    [Object.prototype] has one named [default], [password] or [privacy]);
    a TypeError on [undefined]. *)
Definition readTopic (langResponses : Value) (topic : Bundle -> jsstring)
    : Completion Value :=
  match langResponses with
  | VBundle b => Normal (VString (topic b))
  | VBuiltin _ | VString _ => Normal VUndefined
  | VUndefined => Throw TypeError
  end.

Definition kw_password : jsstring := Eval vm_compute in utf16 "password".
Definition kw_password_deva : jsstring := Eval vm_compute in utf16 "पासवर्ड".
Definition kw_privacy : jsstring := Eval vm_compute in utf16 "privacy".
Definition kw_privacy_deva : jsstring := Eval vm_compute in utf16 "गोपनीयता".

Definition getMockResponse (tbl : CaseTable) (query lang : jsstring)
    : Completion Value :=
  let lowerQuery := toLowerCase tbl query in
  let langKey := lang in
  let langResponses :=
    orElse (getProperty responses langKey)
           (getProperty responses (utf16 "en-US")) in
  if includes lowerQuery kw_password || includes lowerQuery kw_password_deva
  then readTopic langResponses password
  else if includes lowerQuery kw_privacy || includes lowerQuery kw_privacy_deva
  then readTopic langResponses privacy
  else readTopic langResponses default.

(** ** The component state and its handlers *)

Inductive Role : Type := user | bot.

Record Message : Type := mkMessage {
  id : jsstring;
  role : Role;
  text : Value;
  lang : option jsstring
}.

Record LanguageOption : Type := mkLanguage {
  code : jsstring;
  name : jsstring;
  label : jsstring
}.

Definition LANGUAGES : list LanguageOption :=
  [ {| code := utf16 "en-US"; name := utf16 "English"; label := utf16 "English" |};
    {| code := utf16 "hi-IN"; name := utf16 "Hindi"; label := utf16 "हिंदी" |};
    {| code := utf16 "mr-IN"; name := utf16 "Marathi"; label := utf16 "मराठी" |} ].

(** [LANGUAGES[0]], the language selected when the component mounts. *)
Definition defaultLanguage : LanguageOption :=
  {| code := utf16 "en-US"; name := utf16 "English"; label := utf16 "English" |}.

(** A [SpeechSynthesisUtterance] handed to the synthesis queue. *)
Record Utterance : Type := mkUtterance {
  utteranceText : Value;
  utteranceLang : jsstring
}.

(** A callback scheduled by [setTimeout] in [handleSend], with what its
    closure captured and the time it becomes due. *)
Record Timer : Type := mkTimer {
  due : N;
  cleanText : jsstring;
  timerLang : jsstring
}.

(** The React state of the component ([messages], [input],
    [selectedLang]) and the part of the browser it acts on: the pending
    timers and [window.speechSynthesis], which is [None] in a browser
    without speech synthesis and otherwise its queue of utterances.
    (Voice capture only reaches this state through [setInput].) *)
Record State : Type := mkState {
  messages : list Message;
  input : jsstring;
  selectedLang : LanguageOption;
  timers : list Timer;
  speechSynthesis : option (list Utterance)
}.

(** Handlers run in a state and either complete or throw; what they did
    to the state before throwing stays done. *)
Definition Handler (A : Type) : Type := State -> Completion A * State.

Definition ret {A} (a : A) : Handler A := fun st => (Normal a, st).

Definition bind {A B} (m : Handler A) (k : A -> Handler B) : Handler B :=
  fun st =>
    match m st with
    | (Normal a, st') => k a st'
    | (Throw e, st') => (Throw e, st')
    end.

Declare Scope handler_scope.
Delimit Scope handler_scope with handler.
Notation "x <- m ;; k" := (bind m (fun x => k))
  (at level 61, m at next level, right associativity) : handler_scope.
Notation "m ;; k" := (bind m (fun _ => k))
  (at level 61, right associativity) : handler_scope.
Local Open Scope handler_scope.

Definition setMessages (f : list Message -> list Message) : Handler unit :=
  fun st =>
    (Normal tt,
     mkState (f (messages st)) (input st) (selectedLang st) (timers st)
             (speechSynthesis st)).

Definition setInput (s : jsstring) : Handler unit :=
  fun st =>
    (Normal tt,
     mkState (messages st) s (selectedLang st) (timers st)
             (speechSynthesis st)).

Definition setSelectedLang (l : LanguageOption) : Handler unit :=
  fun st =>
    (Normal tt,
     mkState (messages st) (input st) l (timers st) (speechSynthesis st)).

Definition setTimeout (t : Timer) : Handler unit :=
  fun st =>
    (Normal tt,
     mkState (messages st) (input st) (selectedLang st) (timers st ++ [t])
             (speechSynthesis st)).

(** ['speechSynthesis' in window] *)
Definition hasSpeechSynthesis : Handler bool :=
  fun st =>
    (Normal (match speechSynthesis st with Some _ => true | None => false end),
     st).

(** [window.speechSynthesis.cancel()]: empties the queue; where
    [window.speechSynthesis] is [undefined] the method call throws. *)
Definition speechSynthesis_cancel : Handler unit :=
  fun st =>
    match speechSynthesis st with
    | Some _ =>
      (Normal tt,
       mkState (messages st) (input st) (selectedLang st) (timers st)
               (Some []))
    | None => (Throw TypeError, st)
    end.

(** [window.speechSynthesis.speak(utterance)] *)
Definition speechSynthesis_speak (u : Utterance) : Handler unit :=
  fun st =>
    match speechSynthesis st with
    | Some q =>
      (Normal tt,
       mkState (messages st) (input st) (selectedLang st) (timers st)
               (Some (q ++ [u])))
    | None => (Throw TypeError, st)
    end.

Definition speak (text : Value) (lang : jsstring) : Handler unit :=
  has <- hasSpeechSynthesis ;;
  if has then
    speechSynthesis_cancel ;;
    speechSynthesis_speak {| utteranceText := text; utteranceLang := lang |}
  else ret tt.

(** The callback [handleSend] schedules; [now] is what [Date.now()]
    returns when it runs. *)
Definition botCallback (tbl : CaseTable) (now : N) (t : Timer)
    : Handler unit :=
  fun st =>
    match getMockResponse tbl (cleanText t) (timerLang t) with
    | Throw e => (Throw e, st)
    | Normal reply =>
      let botResponse :=
        {| id := numberToString (now + 1);
           role := bot;
           text := reply;
           lang := Some (timerLang t) |} in
      (setMessages (fun prev => prev ++ [botResponse]) ;;
       speak (text botResponse) (timerLang t)) st
    end.

(** [now] is what [Date.now()] returns during the call. *)
Definition handleSend (now : N) : Handler unit :=
  fun st =>
    if jsstring_eqb (trim (input st)) [] then (Normal tt, st)
    else
      let cleanText := sanitizeInput (input st) in
      let userMsg :=
        {| id := numberToString now;
           role := user;
           text := VString cleanText;
           lang := None |} in
      (setMessages (fun prev => prev ++ [userMsg]) ;;
       setInput [] ;;
       setTimeout {| due := now + 1000;
                     cleanText := cleanText;
                     timerLang := code (selectedLang st) |}) st.

Definition clearHistory : Handler unit :=
  setMessages (fun _ => []) ;;
  speechSynthesis_cancel.

Local Close Scope handler_scope.

(** *** The events the component reacts to

    Typing (or a recognised transcript) sets the input; a language button
    selects one of [LANGUAGES]; Enter or the send button calls
    [handleSend]; the oldest pending timer runs its callback once due;
    the bin button calls [clearHistory]; the speaker button of the [i]-th
    message, a reply, calls [speak(msg.text, msg.lang || 'en-US')]. *)
Inductive Event : Type :=
| EInput (s : jsstring)
| ESelectLanguage (i : nat)
| ESend (now : N)
| ETimer (now : N)
| EClear
| ESpeak (i : nat).

Record World : Type := mkWorld {
  state : State;
  clock : N
}.

(** An event handler that throws leaves the component mounted with the
    state it reached, so a step keeps the state either way. *)
Definition after {A} (r : Completion A * State) : State := snd r.

(** One event; [None] when it cannot occur (the clock does not run
    backwards, a timer does not run before it is due, and there is a
    button only for what is displayed). *)
Definition step (tbl : CaseTable) (w : World) (e : Event) : option World :=
  match e with
  | EInput s => Some (mkWorld (after (setInput s (state w))) (clock w))
  | ESelectLanguage i =>
    match nth_error LANGUAGES i with
    | Some l => Some (mkWorld (after (setSelectedLang l (state w))) (clock w))
    | None => None
    end
  | ESend now =>
    if (clock w <=? now)%N
    then Some (mkWorld (after (handleSend now (state w))) now)
    else None
  | ETimer now =>
    match timers (state w) with
    | t :: rest =>
      if (clock w <=? now)%N && (due t <=? now)%N then
        let st := state w in
        let st' := mkState (messages st) (input st) (selectedLang st) rest
                           (speechSynthesis st) in
        Some (mkWorld (after (botCallback tbl now t st')) now)
      else None
    | [] => None
    end
  | EClear => Some (mkWorld (after (clearHistory (state w))) (clock w))
  | ESpeak i =>
    match nth_error (messages (state w)) i with
    | Some m =>
      match role m with
      | bot =>
        let l := match lang m with
                 | Some l => if jsstring_eqb l [] then utf16 "en-US" else l
                 | None => utf16 "en-US"
                 end in
        Some (mkWorld (after (speak (text m) l (state w))) (clock w))
      | user => None
      end
    | None => None
    end
  end.

Fixpoint run (tbl : CaseTable) (w : World) (es : list Event) : option World :=
  match es with
  | [] => Some w
  | e :: es' =>
    match step tbl w e with
    | Some w' => run tbl w' es'
    | None => None
    end
  end.

(** The component as mounted, in a browser with ([true]) or without
    speech synthesis, at time [t0]. *)
Definition initialState (synthesis : bool) : State :=
  {| messages := [];
     input := [];
     selectedLang := defaultLanguage;
     timers := [];
     speechSynthesis := if synthesis then Some [] else None |}.

Definition initialWorld (synthesis : bool) (t0 : N) : World :=
  mkWorld (initialState synthesis) t0.

Definition Reachable (tbl : CaseTable) (w : World) : Prop :=
  exists synthesis t0 es, run tbl (initialWorld synthesis t0) es = Some w.

(** ** Vocabulary of the statements below *)

(** The code unit that precedes the position reached after reading [u]
    from a position preceded by [prev]. *)
Fixpoint prevAfter (prev : option codeUnit) (u : jsstring) : option codeUnit :=
  match u with
  | [] => prev
  | c :: u' => prevAfter (Some c) u'
  end.

(** [n] respects the upper bound of a quantifier. *)
Definition withinMax (n : nat) (max : option nat) : Prop :=
  match max with
  | None => True
  | Some m => n <= m
  end.

(** [st'] is [st] moved forward over some code units. *)
Definition Advances (st st' : MatchState) : Prop :=
  exists u, snd st = u ++ snd st' /\ fst st' = prevAfter (fst st) u.

(** Read [n] characters of the class [cls]; what is left, if that
    succeeds. *)
Fixpoint takeClass (cls : CharClass) (n : nat) (s : jsstring)
    : option jsstring :=
  match n with
  | 0 => Some s
  | S n' =>
    match s with
    | c :: s' => if classMatches cls c then takeClass cls n' s' else None
    | [] => None
    end
  end.

Definition isDigitChar (c : option codeUnit) : bool :=
  match c with
  | Some c => classMatches digitClass c
  | None => false
  end.

(** The phone pattern read as a test on a position: no word character
    before, ten digits, no word character after. *)
Definition phoneAt (prev : option codeUnit) (s : jsstring) : bool :=
  negb (isWordChar prev)
  && match takeClass digitClass 10 s with
     | Some r => negb (isWordChar (hd_error r))
     | None => false
     end.

(** What becomes of a maximal run of digits [d] that stands between
    [before] and [after]: the placeholder when it has ten digits and a
    word boundary on either side, the run itself otherwise. *)
Definition redactedRun (before : option codeUnit) (d : jsstring)
    (after : option codeUnit) : jsstring :=
  if (length d =? 10) && negb (isWordChar before) && negb (isWordChar after)
  then PHONE_REDACTED
  else d.

(** The email pattern read as a language: [s] starts with a local part,
    [@], a domain, a dot and at least two letters. *)
Definition EmailPrefix (s : jsstring) : Prop :=
  exists l dm t r,
    s = l ++ 64%N :: dm ++ 46%N :: t ++ r /\
    l <> [] /\ forallb (classMatches emailLocalClass) l = true /\
    dm <> [] /\ forallb (classMatches emailDomainClass) dm = true /\
    2 <= length t /\ forallb (classMatches letterClass) t = true.

(** No position of [s] starts an email. *)
Definition NoEmail (s : jsstring) : Prop :=
  forall a b, s = a ++ b -> ~ EmailPrefix b.

(** A test every email passes: code units of the local class, at least
    one, and then [@]. *)
Fixpoint localThenAt (s : jsstring) : bool :=
  match s with
  | [] => false
  | c :: s' =>
    classMatches emailLocalClass c
    && match s' with
       | [] => false
       | c' :: _ => (c' =? 64)%N || localThenAt s'
       end
  end.

(** Wherever the pattern [p] does not match in [s] (read after [prev]),
    no email starts. *)
Definition EmailsMatched (p : Pattern) (prev : option codeUnit)
    (s : jsstring) : Prop :=
  forall a b, s = a ++ b ->
    matchAt p (prevAfter prev a, b) = None -> ~ EmailPrefix b.

(** [kw] occurs in [q]; [kw] occurs in [q] in some casing of its ASCII
    letters. *)
Definition Contains (q kw : jsstring) : Prop :=
  exists a b, q = a ++ kw ++ b.

Definition ContainsAnyCase (q kw : jsstring) : Prop :=
  exists a w b, q = a ++ w ++ b /\ map asciiLower w = kw.

(** The bundle [getMockResponse] selects for a language code. *)
Definition langResponsesOf (lang : jsstring) : Value :=
  orElse (getProperty responses lang)
         (getProperty responses (utf16 "en-US")).

(** The keyword rules on the lower-cased query. *)
Definition matchesPassword (tbl : CaseTable) (query : jsstring) : bool :=
  includes (toLowerCase tbl query) kw_password
  || includes (toLowerCase tbl query) kw_password_deva.

Definition matchesPrivacy (tbl : CaseTable) (query : jsstring) : bool :=
  includes (toLowerCase tbl query) kw_privacy
  || includes (toLowerCase tbl query) kw_privacy_deva.

(** Everything the state keeps of what the user typed and sent went
    through [sanitizeInput]: the text of each user message and the text
    each pending callback holds. *)
Definition Sanitized (st : State) : Prop :=
  (forall m, In m (messages st) -> role m = user ->
     exists raw, text m = VString (sanitizeInput raw))
  /\ (forall t, In t (timers st) ->
     exists raw, cleanText t = sanitizeInput raw).

(** A short run of the component, used to instantiate statements: the
    user types a message, sends it at time 5 and types again. *)
Definition sampleEvents : list Event :=
  [ EInput (utf16 "mail a@b.com"); ESend 5;
    EInput (utf16 "call 9876543210") ].

Definition sampleWorld : World :=
  mkWorld
    (after (setInput (utf16 "call 9876543210")
       (after (handleSend 5
          (after (setInput (utf16 "mail a@b.com") (initialState true)))))))
    5.

(** Whether the code unit at a position, if there is one, is in a
    class. *)
Definition inClassOpt (cls : CharClass) (c : option codeUnit) : bool :=
  match c with
  | Some c => classMatches cls c
  | None => false
  end.

(** A continuation whose progress does not depend on the code unit
    before the position (no [\b] ahead). *)
Definition PrevBlind (k : Continuation) : Prop :=
  forall prev prev' s,
    option_map snd (k (prev, s)) = option_map snd (k (prev', s)).

(** ** Voice capture: [toggleRecording] and the recognition callbacks *)

(** A [SpeechRecognition] object as [toggleRecording] configures it. *)
Record Recognition : Type := mkRecognition {
  recLang : jsstring;
  continuous : bool;
  interimResults : bool
}.

(** The component with its recording flag, and the part of the browser
    voice capture acts on: whether a recognition constructor exists
    (['webkitSpeechRecognition' in window || 'SpeechRecognition' in
    window]), the recognitions started and not yet ended, and the alerts
    shown. *)
Record VoiceWorld : Type := mkVoiceWorld {
  world : World;
  isRecording : bool;
  canRecognize : bool;
  listening : list Recognition;
  alerts : list jsstring
}.

Definition NOT_SUPPORTED : jsstring :=
  Eval vm_compute in utf16 "Speech recognition not supported in this browser.".

Definition toggleRecording (vw : VoiceWorld) : VoiceWorld :=
  if negb (canRecognize vw) then
    mkVoiceWorld (world vw) (isRecording vw) (canRecognize vw) (listening vw)
      (alerts vw ++ [NOT_SUPPORTED])
  else if isRecording vw then
    mkVoiceWorld (world vw) false (canRecognize vw) (listening vw) (alerts vw)
  else
    let recognition :=
      {| recLang := code (selectedLang (state (world vw)));
         continuous := false;
         interimResults := false |} in
    mkVoiceWorld (world vw) true (canRecognize vw)
      (listening vw ++ [recognition]) (alerts vw).

(** [recognition.onresult]: [setInput(transcript); setIsRecording(false)]. *)
Definition onresult (transcript : jsstring) (vw : VoiceWorld) : VoiceWorld :=
  mkVoiceWorld
    (mkWorld (after (setInput transcript (state (world vw))))
             (clock (world vw)))
    false (canRecognize vw) (listening vw) (alerts vw).

(** [recognition.onend] and [recognition.onerror]:
    [setIsRecording(false)]. *)
Definition onend (vw : VoiceWorld) : VoiceWorld :=
  mkVoiceWorld (world vw) false (canRecognize vw) (listening vw) (alerts vw).

Definition onerror (vw : VoiceWorld) : VoiceWorld :=
  mkVoiceWorld (world vw) false (canRecognize vw) (listening vw) (alerts vw).

Fixpoint removeNth {A} (i : nat) (l : list A) : list A :=
  match l, i with
  | [], _ => []
  | _ :: t, 0 => t
  | x :: t, S i' => x :: removeNth i' t
  end.

(** What can happen to the component with voice capture: an event of
    the component itself, a click on the microphone, and what the
    browser reports of the [i]-th recognition that is listening: a
    final transcript, an error, its end (after which it listens no
    more). *)
Inductive VoiceEvent : Type :=
| VUi (e : Event)
| VToggle
| VResult (i : nat) (transcript : jsstring)
| VError (i : nat)
| VEnd (i : nat).

Definition voiceStep (tbl : CaseTable) (vw : VoiceWorld) (e : VoiceEvent)
    : option VoiceWorld :=
  match e with
  | VUi e =>
    match step tbl (world vw) e with
    | Some w' =>
      Some (mkVoiceWorld w' (isRecording vw) (canRecognize vw)
              (listening vw) (alerts vw))
    | None => None
    end
  | VToggle => Some (toggleRecording vw)
  | VResult i transcript =>
    match nth_error (listening vw) i with
    | Some _ => Some (onresult transcript vw)
    | None => None
    end
  | VError i =>
    match nth_error (listening vw) i with
    | Some _ => Some (onerror vw)
    | None => None
    end
  | VEnd i =>
    match nth_error (listening vw) i with
    | Some _ =>
      let vw' := onend vw in
      Some (mkVoiceWorld (world vw') (isRecording vw') (canRecognize vw')
              (removeNth i (listening vw')) (alerts vw'))
    | None => None
    end
  end.

Fixpoint voiceRun (tbl : CaseTable) (vw : VoiceWorld) (es : list VoiceEvent)
    : option VoiceWorld :=
  match es with
  | [] => Some vw
  | e :: es' =>
    match voiceStep tbl vw e with
    | Some vw' => voiceRun tbl vw' es'
    | None => None
    end
  end.

Definition initialVoiceWorld (synthesis recognition : bool) (t0 : N)
    : VoiceWorld :=
  mkVoiceWorld (initialWorld synthesis t0) false recognition [] [].

(** ** More vocabulary *)

(** No position of [s] starts a ten-digit run between word boundaries. *)
Definition NoPhone (s : jsstring) : Prop :=
  forall a b, s = a ++ b -> phoneAt (prevAfter None a) b = false.

(** A code unit that can be part of no email: outside the local class
    (which holds every word character and every character of the domain
    class) and not [@]. *)
Definition isSeparator (c : codeUnit) : bool :=
  negb (classMatches emailLocalClass c) && negb (c =? 64)%N.

(** A match state with the text [t] put back after what is left. *)
Definition extendRest (t : jsstring) (st : MatchState) : MatchState :=
  (fst st, snd st ++ t).

(** [s] is one of the three texts of the bundle [b]. *)
Definition topicOf (b : Bundle) (s : jsstring) : Prop :=
  s = default b \/ s = password b \/ s = privacy b.

(** The replies the state holds and the replies to come are those of
    the supported languages: the selected language and the language of
    each pending callback have a bundle, and each reply carries the code
    of a bundle and one of the texts of that bundle. *)
Definition RepliesWellFormed (st : State) : Prop :=
  (exists b, In (code (selectedLang st), b) responses)
  /\ (forall t, In t (timers st) -> exists b, In (timerLang t, b) responses)
  /\ (forall m, In m (messages st) -> role m = bot ->
      exists l b s,
        lang m = Some l /\ In (l, b) responses
        /\ text m = VString s /\ topicOf b s).

(** The synthesis queue holds one utterance at most. *)
Definition OneUtterance (st : State) : Prop :=
  match speechSynthesis st with
  | Some q => length q <= 1
  | None => True
  end.

(** Where a run leads (the world itself when an event cannot occur). *)
Definition worldAfter (tbl : CaseTable) (w : World) (es : list Event)
    : World :=
  match run tbl w es with
  | Some w' => w'
  | None => w
  end.

(** Two more worlds used to instantiate statements: the user has
    typed a question; and then sent it, switched to Hindi, got the reply
    and asked to hear it again. *)
Definition typedWorld : World :=
  worldAfter excerptCaseTable (initialWorld true 0)
    [ EInput (utf16 "Is my password safe?") ].

Definition sampleReplyEvents : list Event :=
  [ EInput (utf16 "Is my password safe?"); ESend 5; ESelectLanguage 1;
    ETimer 1005; ESpeak 1 ].

Definition sampleReplyWorld : World :=
  worldAfter excerptCaseTable (initialWorld true 0) sampleReplyEvents.

(** What holds of voice capture at any time: while the indicator is on
    a recognition is listening, and every recognition that listens was
    set up for one final result in a supported language. *)
Definition VoiceWellFormed (vw : VoiceWorld) : Prop :=
  (isRecording vw = false \/ exists r rest, listening vw = r :: rest)
  /\ Forall (fun r => continuous r = false /\ interimResults r = false
                      /\ exists b, In (recLang r, b) responses)
       (listening vw).

(** A world with voice capture, used to instantiate statements: the
    user starts dictating, stops, and the recognition delivers its
    transcript all the same; the user sends it. *)
Definition sampleVoiceEvents : list VoiceEvent :=
  [ VToggle; VToggle; VResult 0 (utf16 "call me on 9876543210");
    VUi (ESend 5) ].

Definition sampleVoiceWorld : VoiceWorld :=
  match voiceRun excerptCaseTable (initialVoiceWorld true true 0)
          sampleVoiceEvents with
  | Some vw => vw
  | None => initialVoiceWorld true true 0
  end.






(** The message the callback of the timer [t] appends when it runs at
    the clock reading [now]. *)
Definition replyOf (tbl : CaseTable) (now : N) (t : Timer) : Message :=
  {| id := numberToString (now + 1);
     role := bot;
     text := match getMockResponse tbl (cleanText t) (timerLang t) with
             | Normal reply => reply
             | Throw _ => VUndefined
             end;
     lang := Some (timerLang t) |}.

(** Every pending callback is due within a second of the clock. *)
Definition TimersDue (w : World) : Prop :=
  Forall (fun t => (due t <= clock w + 1000)%N) (timers (state w)).


(* ================================================================== *)
(** * Part II: properties *)
(* ================================================================== *)

(** ** Character classes as ranges of code units *)

Lemma digit_spec c :
  classMatches digitClass c = true <-> (48 <= c <= 57)%N.
Proof.
  unfold classMatches, digitClass, inClassRange, charCode; simpl.
  rewrite orb_false_r, andb_true_iff, !N.leb_le. tauto.
Qed.

Lemma word_spec c :
  classMatches wordClass c = true <->
  ((97 <= c <= 122) \/ (65 <= c <= 90) \/ (48 <= c <= 57) \/ c = 95)%N.
Proof.
  unfold classMatches, wordClass, inClassRange, charCode; simpl.
  rewrite !orb_true_iff, !andb_true_iff, !N.leb_le, N.eqb_eq. intuition congruence.
Qed.

Lemma local_spec c :
  classMatches emailLocalClass c = true <->
  ((97 <= c <= 122) \/ (65 <= c <= 90) \/ (48 <= c <= 57) \/ c = 46
   \/ c = 95 \/ c = 37 \/ c = 43 \/ c = 45)%N.
Proof.
  unfold classMatches, emailLocalClass, inClassRange, charCode; simpl.
  rewrite !orb_true_iff, !andb_true_iff, !N.leb_le, !N.eqb_eq.
  intuition congruence.
Qed.

Lemma domain_spec c :
  classMatches emailDomainClass c = true <->
  ((97 <= c <= 122) \/ (65 <= c <= 90) \/ (48 <= c <= 57) \/ c = 46
   \/ c = 45)%N.
Proof.
  unfold classMatches, emailDomainClass, inClassRange, charCode; simpl.
  rewrite !orb_true_iff, !andb_true_iff, !N.leb_le, !N.eqb_eq.
  intuition congruence.
Qed.

Lemma letter_spec c :
  classMatches letterClass c = true <->
  ((97 <= c <= 122) \/ (65 <= c <= 90))%N.
Proof.
  unfold classMatches, letterClass, inClassRange, charCode; simpl.
  rewrite !orb_true_iff, !andb_true_iff, !N.leb_le. intuition congruence.
Qed.

Lemma at_spec c : classMatches [CharOne "@"] c = true <-> c = 64%N.
Proof.
  unfold classMatches, inClassRange, charCode; simpl.
  rewrite orb_false_r, N.eqb_eq. tauto.
Qed.

Lemma dot_spec c : classMatches [CharOne "."] c = true <-> c = 46%N.
Proof.
  unfold classMatches, inClassRange, charCode; simpl.
  rewrite orb_false_r, N.eqb_eq. tauto.
Qed.

(** Turn every class test in sight into arithmetic on the code unit. *)
Ltac class_arith :=
  repeat match goal with
  | H : classMatches _ _ = false |- _ => apply not_true_iff_false in H
  | |- classMatches _ _ = false => apply not_true_iff_false
  end;
  rewrite ?digit_spec, ?word_spec, ?local_spec, ?domain_spec, ?letter_spec,
    ?at_spec, ?dot_spec in *.

Ltac class_lia := class_arith; lia.

(** ** The matcher *)

Lemma prevAfter_app prev u v :
  prevAfter prev (u ++ v) = prevAfter (prevAfter prev u) v.
Proof. revert prev; induction u; simpl; auto. Qed.

Lemma Advances_refl st : Advances st st.
Proof. exists []. auto. Qed.

Lemma Advances_cons prev c s st :
  Advances (Some c, s) st -> Advances (prev, c :: s) st.
Proof.
  intros (u & Hs & Hp). exists (c :: u). simpl in *. split; congruence.
Qed.

Section RepeatMatcher.

Variable cls : CharClass.
Variable k : Continuation.

(** A failed repetition means the continuation fails after every
    admissible number of characters of the class. *)
Lemma repeatMatcher_None s : forall min max prev,
  repeatMatcher cls min max k prev s = None ->
  forall u v, s = u ++ v ->
    forallb (classMatches cls) u = true ->
    min <= length u -> withinMax (length u) max ->
    k (prevAfter prev u, v) = None.
Proof.
  induction s as [|c s IH]; intros min max prev H u v Hs Hu Hmin Hmax.
  - destruct u; [|discriminate]. simpl in *. subst v.
    destruct max as [[|m]|]; simpl in H; auto;
      destruct min; auto; lia.
  - destruct max as [[|m]|].
    + simpl in H. destruct u; simpl in *; [subst; auto | lia].
    + simpl in H. destruct u as [|c' u].
      * simpl in *. subst v. assert (min = 0) by lia. subst min.
        destruct (classMatches cls c); auto.
        destruct (repeatMatcher cls _ _ k (Some c) s); [discriminate|auto].
      * simpl in *. injection Hs as <- Hs. apply andb_true_iff in Hu as [Hc Hu].
        rewrite Hc in H.
        destruct (repeatMatcher cls _ _ k (Some c) s) eqn:E;
          [discriminate|].
        eapply IH; eauto; simpl; lia.
    + simpl in H. destruct u as [|c' u].
      * simpl in *. subst v. assert (min = 0) by lia. subst min.
        destruct (classMatches cls c); auto.
        destruct (repeatMatcher cls _ _ k (Some c) s); [discriminate|auto].
      * simpl in *. injection Hs as <- Hs. apply andb_true_iff in Hu as [Hc Hu].
        rewrite Hc in H.
        destruct (repeatMatcher cls _ _ k (Some c) s) eqn:E;
          [discriminate|].
        eapply IH; eauto; simpl; lia.
Qed.

(** A successful repetition read some admissible number of characters of
    the class, the continuation succeeded from there, and it fails after
    every longer admissible run (greedy). *)
Lemma repeatMatcher_Some s : forall min max prev r,
  withinMax min max ->
  repeatMatcher cls min max k prev s = Some r ->
  exists u v, s = u ++ v /\
    forallb (classMatches cls) u = true /\
    min <= length u /\ withinMax (length u) max /\
    k (prevAfter prev u, v) = Some r /\
    (forall u' v', s = u' ++ v' ->
       forallb (classMatches cls) u' = true ->
       length u < length u' -> withinMax (length u') max ->
       k (prevAfter prev u', v') = None).
Proof.
  induction s as [|c s IH]; intros min max prev r Hwf H.
  - exists [], []. simpl.
    assert (Hk : k (prev, []) = Some r /\ min = 0).
    { destruct max as [[|m]|]; simpl in *; destruct min; auto; try lia;
        discriminate. }
    destruct Hk as [Hk ->]. repeat split; auto.
    intros u' v' Hs _ Hlt _. destruct u'; [simpl in Hlt; lia | discriminate].
  - assert (Hstop : k (prev, c :: s) = Some r -> min = 0 ->
      (forall u' v', c :: s = u' ++ v' ->
         forallb (classMatches cls) u' = true ->
         0 < length u' -> withinMax (length u') max ->
         k (prevAfter prev u', v') = None) ->
      exists u v, c :: s = u ++ v /\
        forallb (classMatches cls) u = true /\
        min <= length u /\ withinMax (length u) max /\
        k (prevAfter prev u, v) = Some r /\
        (forall u' v', c :: s = u' ++ v' ->
           forallb (classMatches cls) u' = true ->
           length u < length u' -> withinMax (length u') max ->
           k (prevAfter prev u', v') = None)).
    { intros Hk -> Hlonger. exists [], (c :: s). simpl. repeat split; auto. }
    destruct max as [[|m]|].
    + simpl in H. simpl in Hwf. apply Hstop; auto; [lia|].
      intros u' v' _ _ Hpos Hmax. simpl in Hmax. lia.
    + simpl in H. destruct (classMatches cls c) eqn:Hc.
      * destruct (repeatMatcher cls _ _ k (Some c) s) eqn:E.
        -- injection H as ->.
           apply IH in E; [|simpl in *; lia].
           destruct E as (u & v & -> & Hu & Hmin & Hmax & Hk & Hgreedy).
           exists (c :: u), v. simpl. rewrite Hc, Hu.
           repeat split; auto; try lia.
           ++ simpl in Hmax. lia.
           ++ intros u' v' Hs Hu' Hlt Hmax'. destruct u' as [|c' u'];
                [simpl in Hlt; lia|].
              simpl in *. injection Hs as <- Hs.
              apply andb_true_iff in Hu' as [_ Hu'].
              apply Hgreedy; auto; simpl; lia.
        -- destruct min; [|discriminate]. apply Hstop; auto.
           intros u' v' Hs Hu' Hpos Hmax'. destruct u' as [|c' u'];
             [simpl in Hpos; lia|].
           simpl in *. injection Hs as <- Hs.
           apply andb_true_iff in Hu' as [_ Hu'].
           eapply repeatMatcher_None; eauto; simpl; lia.
      * destruct min; [|discriminate]. apply Hstop; auto.
        intros u' v' Hs Hu' Hpos _. destruct u' as [|c' u'];
          [simpl in Hpos; lia|].
        simpl in *. injection Hs as <- Hs. rewrite Hc in Hu'. discriminate.
    + simpl in H. destruct (classMatches cls c) eqn:Hc.
      * destruct (repeatMatcher cls _ _ k (Some c) s) eqn:E.
        -- injection H as ->.
           apply IH in E; [|simpl; auto].
           destruct E as (u & v & -> & Hu & Hmin & Hmax & Hk & Hgreedy).
           exists (c :: u), v. simpl. rewrite Hc, Hu.
           repeat split; auto; try lia.
           intros u' v' Hs Hu' Hlt Hmax'. destruct u' as [|c' u'];
             [simpl in Hlt; lia|].
           simpl in *. injection Hs as <- Hs.
           apply andb_true_iff in Hu' as [_ Hu'].
           apply Hgreedy; auto; simpl; lia.
        -- destruct min; [|discriminate]. apply Hstop; auto.
           intros u' v' Hs Hu' Hpos Hmax'. destruct u' as [|c' u'];
             [simpl in Hpos; lia|].
           simpl in *. injection Hs as <- Hs.
           apply andb_true_iff in Hu' as [_ Hu'].
           eapply repeatMatcher_None; eauto; simpl; lia.
      * destruct min; [|discriminate]. apply Hstop; auto.
        intros u' v' Hs Hu' Hpos _. destruct u' as [|c' u'];
          [simpl in Hpos; lia|].
        simpl in *. injection Hs as <- Hs. rewrite Hc in Hu'. discriminate.
Qed.

(** Conversely: the longest admissible run after which the continuation
    succeeds is the one the matcher returns. *)
Lemma repeatMatcher_greedy s min max prev r u v :
  withinMax min max ->
  s = u ++ v ->
  forallb (classMatches cls) u = true ->
  min <= length u -> withinMax (length u) max ->
  k (prevAfter prev u, v) = Some r ->
  (forall u' v', s = u' ++ v' ->
     forallb (classMatches cls) u' = true ->
     length u < length u' -> withinMax (length u') max ->
     k (prevAfter prev u', v') = None) ->
  repeatMatcher cls min max k prev s = Some r.
Proof.
  intros Hwf Hs Hu Hmin Hmax Hk Hgreedy.
  destruct (repeatMatcher cls min max k prev s) as [r'|] eqn:E.
  - apply repeatMatcher_Some in E; auto.
    destruct E as (u1 & v1 & Hs1 & Hu1 & Hmin1 & Hmax1 & Hk1 & Hgreedy1).
    destruct (Nat.lt_trichotomy (length u) (length u1)) as [Hlt|[Heq|Hlt]].
    + rewrite (Hgreedy u1 v1) in Hk1; auto. discriminate.
    + assert (u = u1 /\ v = v1) as [<- <-].
      { subst s. apply app_eq_app in Hs1 as [w [[-> ->]|[-> ->]]];
          rewrite length_app in Heq; destruct w; simpl in *; try lia;
          rewrite ?app_nil_r; auto. }
      congruence.
    + rewrite (Hgreedy1 u v) in Hk; auto. discriminate.
  - rewrite (repeatMatcher_None _ _ _ _ E u v) in Hk; auto.
Qed.

Lemma repeatMatcher_Advances s : forall min max prev r,
  (forall st r, k st = Some r -> Advances st r) ->
  repeatMatcher cls min max k prev s = Some r ->
  Advances (prev, s) r.
Proof.
  induction s as [|c s IH]; intros min max prev r Hk H.
  - destruct max as [[|m]|]; simpl in H; try (apply Hk; exact H);
      destruct min; try discriminate; apply Hk; exact H.
  - assert (Hstop : match min with 0 => k (prev, c :: s) | S _ => None end
                    = Some r -> Advances (prev, c :: s) r).
    { destruct min; [apply Hk | discriminate]. }
    destruct max as [[|m]|]; simpl in H.
    + apply Hk; exact H.
    + destruct (classMatches cls c); auto.
      destruct (repeatMatcher cls _ _ k (Some c) s) eqn:E;
        auto.
      injection H as ->. apply Advances_cons. eapply IH; eauto.
    + destruct (classMatches cls c); auto.
      destruct (repeatMatcher cls _ _ k (Some c) s) eqn:E;
        auto.
      injection H as ->. apply Advances_cons. eapply IH; eauto.
Qed.

End RepeatMatcher.

Lemma matchPattern_Advances p : forall k st r,
  (forall st r, k st = Some r -> Advances st r) ->
  matchPattern p k st = Some r -> Advances st r.
Proof.
  induction p as [|t p IH]; intros k st r Hk H; simpl in H.
  - auto.
  - destruct t as [|cls min max].
    + destruct (xorb _ _); [eauto | discriminate].
    + destruct st as [prev s]. simpl in H.
      eapply repeatMatcher_Advances; [|exact H].
      intros st1 r1. apply IH. exact Hk.
Qed.

Lemma matchAt_Advances p st r : matchAt p st = Some r -> Advances st r.
Proof.
  unfold matchAt. apply matchPattern_Advances.
  intros st1 r1 [= <-]. apply Advances_refl.
Qed.

(** ** The global replacement loop *)

Section ReplaceLoop.

Variable p : Pattern.
Variable tok : jsstring.

Lemma replaceLoop_fuel n : forall m prev s,
  length s < n -> length s < m ->
  replaceLoop n p tok prev s = replaceLoop m p tok prev s.
Proof.
  induction n as [|n IH]; intros m prev s Hn Hm; [lia|].
  destruct m as [|m]; [lia|]. simpl.
  destruct (matchAt p _) as [[prev' s']|].
  - destruct (_ <? _) eqn:Hlt.
    + apply Nat.ltb_lt in Hlt. f_equal. apply IH; lia.
    + destruct s; auto. do 2 f_equal. simpl in *. apply IH; lia.
  - destruct s; auto. f_equal. simpl in *. apply IH; lia.
Qed.

Lemma replaceFrom_nil prev :
  matchAt p (prev, []) = None -> replaceFrom p tok prev [] = [].
Proof. unfold replaceFrom. simpl. intros ->. reflexivity. Qed.

Lemma replaceFrom_skip prev c s :
  matchAt p (prev, c :: s) = None ->
  replaceFrom p tok prev (c :: s) = c :: replaceFrom p tok (Some c) s.
Proof.
  unfold replaceFrom. intros H.
  change (replaceLoop (S (length (c :: s))) p tok prev (c :: s))
    with (match matchAt p (prev, c :: s) with
          | Some (prev', s') =>
            if length s' <? length (c :: s)
            then tok ++ replaceLoop (length (c :: s)) p tok prev' s'
            else tok ++ c :: replaceLoop (length (c :: s)) p tok (Some c) s
          | None => c :: replaceLoop (length (c :: s)) p tok (Some c) s
          end).
  rewrite H. reflexivity.
Qed.

Lemma replaceFrom_hit prev s prev' s' :
  matchAt p (prev, s) = Some (prev', s') ->
  length s' < length s ->
  replaceFrom p tok prev s = tok ++ replaceFrom p tok prev' s'.
Proof.
  unfold replaceFrom. intros H Hlt.
  remember (replaceLoop (S (length s')) p tok prev' s') as rest eqn:Hrest.
  simpl. rewrite H.
  apply Nat.ltb_lt in Hlt. rewrite Hlt. f_equal.
  apply Nat.ltb_lt in Hlt. subst rest. apply replaceLoop_fuel; lia.
Qed.

End ReplaceLoop.


(** ** The phone pattern *)

Lemma takeClass_Some cls n : forall s r,
  takeClass cls n s = Some r ->
  s = firstn n s ++ r /\ length (firstn n s) = n /\
  forallb (classMatches cls) (firstn n s) = true /\ r = skipn n s.
Proof.
  induction n as [|n IH]; intros s r H; simpl in H.
  - injection H as <-. auto.
  - destruct s as [|c s]; [discriminate|].
    destruct (classMatches cls c) eqn:Hc; [|discriminate].
    apply IH in H as (Hs & Hlen & Hall & Hr). simpl. rewrite Hc, Hall.
    repeat split; auto. f_equal. exact Hs.
Qed.

(** Reading [n] characters of a class from a maximal run [d] of it. *)
Lemma takeClass_run cls n : forall d r,
  forallb (classMatches cls) d = true ->
  match hd_error r with Some c => classMatches cls c | None => false end = false ->
  takeClass cls n (d ++ r) =
  if n <=? length d then Some (skipn n d ++ r) else None.
Proof.
  induction n as [|n IH]; intros d r Hd Hr; simpl.
  - reflexivity.
  - destruct d as [|c d]; simpl in *.
    + destruct r as [|c r]; simpl in *; auto. rewrite Hr. reflexivity.
    + apply andb_true_iff in Hd as [-> Hd]. apply IH; auto.
Qed.

Lemma prevAfter_class cls prev u :
  forallb (classMatches cls) u = true -> u <> [] ->
  exists c, prevAfter prev u = Some c /\ classMatches cls c = true.
Proof.
  revert prev. induction u as [|c u IH]; intros prev H Hne; [congruence|].
  simpl in *. apply andb_true_iff in H as [Hc H].
  destruct u as [|c' u]; [exists c; auto|].
  apply IH; auto. discriminate.
Qed.

Lemma prevAfter_nonempty prev prev' u :
  u <> [] -> prevAfter prev u = prevAfter prev' u.
Proof. destruct u; [congruence | reflexivity]. Qed.

Lemma digit_word c :
  classMatches digitClass c = true -> classMatches wordClass c = true.
Proof. class_lia. Qed.

Lemma isDigitChar_word o : isDigitChar o = true -> isWordChar o = true.
Proof. destruct o; simpl; [apply digit_word | discriminate]. Qed.

Lemma repeatMatcher_exact cls k n : forall prev s,
  repeatMatcher cls n (Some n) k prev s =
  match takeClass cls n s with
  | Some r => k (prevAfter prev (firstn n s), r)
  | None => None
  end.
Proof.
  induction n as [|n IH]; intros prev s.
  - destruct s; reflexivity.
  - destruct s as [|c s]; simpl; [reflexivity|].
    destruct (classMatches cls c); [|reflexivity].
    rewrite IH. destruct (takeClass cls n s); [|reflexivity].
    destruct (k _); reflexivity.
Qed.

(** The matcher on the phone pattern is the test [phoneAt]; a match is
    the ten digits. *)
Lemma matchAt_phone prev s :
  matchAt phoneRegex (prev, s) =
  if phoneAt prev s
  then Some (prevAfter prev (firstn 10 s), skipn 10 s)
  else None.
Proof.
  unfold matchAt, phoneRegex, phoneAt.
  cbn [matchPattern fst snd]. rewrite repeatMatcher_exact.
  destruct (takeClass digitClass 10 s) as [r|] eqn:E.
  - apply takeClass_Some in E as (Hs & Hlen & Hall & Hr).
    assert (Hne : firstn 10 s <> []) by (intros H0; rewrite H0 in Hlen; discriminate).
    destruct (prevAfter_class digitClass prev _ Hall Hne) as (c9 & Hc9 & Hd9).
    assert (Hhd : isWordChar (hd_error s) = true).
    { destruct s as [|c s]; [exfalso; apply Hne; reflexivity|].
      simpl in Hall. apply andb_true_iff in Hall as [Hc _].
      simpl. apply digit_word, Hc. }
    rewrite Hhd, Hc9. cbn [fst snd isWordChar]. rewrite (digit_word _ Hd9).
    rewrite xorb_true_r, <- Hr.
    destruct (isWordChar prev); cbn [negb andb xorb]; [reflexivity|].
    destruct (isWordChar (hd_error r)); reflexivity.
  - rewrite andb_false_r. destruct (xorb _ _); reflexivity.
Qed.

Lemma phoneAt_word prev s : isWordChar prev = true -> phoneAt prev s = false.
Proof. unfold phoneAt. intros ->. reflexivity. Qed.

Lemma phoneAt_nondigit prev s :
  isDigitChar (hd_error s) = false -> phoneAt prev s = false.
Proof.
  unfold phoneAt. intros H. destruct s as [|c s]; simpl in *.
  - apply andb_false_r.
  - rewrite H. apply andb_false_r.
Qed.

Lemma phoneAt_prev prev prev' s :
  isWordChar prev = isWordChar prev' -> phoneAt prev s = phoneAt prev' s.
Proof. unfold phoneAt. intros ->. reflexivity. Qed.

(** ** The phone substitution, position by position *)

Abbreviation RP := (replaceFrom phoneRegex PHONE_REDACTED).

Lemma RP_nil prev : RP prev [] = [].
Proof.
  apply replaceFrom_nil. rewrite matchAt_phone, phoneAt_nondigit; reflexivity.
Qed.

Lemma RP_skip prev c s :
  phoneAt prev (c :: s) = false -> RP prev (c :: s) = c :: RP (Some c) s.
Proof.
  intros H. apply replaceFrom_skip. rewrite matchAt_phone, H. reflexivity.
Qed.

Lemma phoneAt_length prev s : phoneAt prev s = true -> 10 <= length s.
Proof.
  unfold phoneAt. intros H. apply andb_true_iff in H as [_ H].
  destruct (takeClass digitClass 10 s) eqn:E; [|discriminate].
  apply takeClass_Some in E as (_ & Hlen & _). rewrite length_firstn in Hlen. lia.
Qed.

Lemma RP_hit prev s :
  phoneAt prev s = true ->
  RP prev s = PHONE_REDACTED ++ RP (prevAfter prev (firstn 10 s)) (skipn 10 s).
Proof.
  intros H. apply replaceFrom_hit.
  - rewrite matchAt_phone, H. reflexivity.
  - apply phoneAt_length in H. rewrite length_skipn. lia.
Qed.

(** Only whether the previous code unit is a word character matters, and
    not even that before a non-digit. *)
Lemma RP_prev prev prev' s :
  isWordChar prev = isWordChar prev' \/ isDigitChar (hd_error s) = false ->
  RP prev s = RP prev' s.
Proof.
  intros H. destruct s as [|c s]; [rewrite !RP_nil; reflexivity|].
  assert (Hp : phoneAt prev (c :: s) = phoneAt prev' (c :: s)).
  { destruct H as [H|H]; [apply phoneAt_prev, H|].
    rewrite !phoneAt_nondigit; auto. }
  destruct (phoneAt prev (c :: s)) eqn:E.
  - rewrite (RP_hit prev) by exact E. rewrite (RP_hit prev') by congruence.
    reflexivity.
  - rewrite (RP_skip prev) by exact E. rewrite (RP_skip prev') by congruence.
    reflexivity.
Qed.

(** Text without digits is copied. *)
Lemma RP_nondigits w : forall prev t,
  forallb (fun c => negb (classMatches digitClass c)) w = true ->
  RP prev (w ++ t) = w ++ RP (prevAfter prev w) t.
Proof.
  induction w as [|c w IH]; intros prev t H; simpl in *; auto.
  apply andb_true_iff in H as [Hc H]. apply negb_true_iff in Hc.
  rewrite RP_skip by (apply phoneAt_nondigit; exact Hc).
  f_equal. apply IH, H.
Qed.

(** Digits that follow a word character are copied. *)
Lemma RP_digits d : forall prev t,
  isWordChar prev = true ->
  forallb (classMatches digitClass) d = true ->
  RP prev (d ++ t) = d ++ RP (prevAfter prev d) t.
Proof.
  induction d as [|c d IH]; intros prev t Hp H; simpl in *; auto.
  apply andb_true_iff in H as [Hc H].
  rewrite RP_skip by (apply phoneAt_word, Hp).
  f_equal. apply IH; auto. simpl. apply digit_word, Hc.
Qed.

(** The test on a maximal run of digits. *)
Lemma phoneAt_run prev d r :
  forallb (classMatches digitClass) d = true ->
  isDigitChar (hd_error r) = false ->
  phoneAt prev (d ++ r) =
  (length d =? 10) && negb (isWordChar prev) && negb (isWordChar (hd_error r)).
Proof.
  intros Hd Hr. unfold phoneAt. rewrite takeClass_run; auto.
  destruct (Nat.leb_spec 10 (length d)) as [Hle|Hlt].
  - destruct (Nat.eqb_spec (length d) 10) as [Heq|Hne].
    + rewrite skipn_all2 by lia. reflexivity.
    + assert (Hsk : exists c d', skipn 10 d = c :: d').
      { destruct (skipn 10 d) as [|c d'] eqn:E; [|eauto].
        apply (f_equal (@length _)) in E. rewrite length_skipn in E.
        simpl in E. lia. }
      destruct Hsk as (c & d' & Hsk). rewrite Hsk.
      cbn [app hd_error isWordChar].
      assert (Hc : classMatches digitClass c = true).
      { assert (Hin : In c (skipn 10 d)) by (rewrite Hsk; left; reflexivity).
        rewrite <- (firstn_skipn 10 d) in Hd. rewrite forallb_app in Hd.
        apply andb_true_iff in Hd as [_ Hd].
        rewrite forallb_forall in Hd. apply Hd, Hin. }
      rewrite (digit_word _ Hc). simpl. apply andb_false_r.
  - destruct (Nat.eqb_spec (length d) 10); [lia|]. simpl. apply andb_false_r.
Qed.

(** If a position of [a ++ t] inside [a] passes the test and [a] does not
    end in a digit, the ten digits and the code unit after them all lie
    in [a]. *)
Lemma takeClass_inside cls n : forall a t,
  a <> [] ->
  match prevAfter None a with Some c => classMatches cls c | None => false end = false ->
  takeClass cls n (a ++ t) =
  match takeClass cls n a with Some r => Some (r ++ t) | None => None end
  /\ (forall r, takeClass cls n a = Some r -> r <> []).
Proof.
  induction n as [|n IH]; intros a t Hne Hlast.
  - simpl. split; [reflexivity|]. intros r [= <-]. exact Hne.
  - destruct a as [|c a]; [congruence|]. simpl.
    destruct (classMatches cls c) eqn:Hc.
    + destruct a as [|c' a].
      * simpl in Hlast. congruence.
      * apply IH; [discriminate|]. exact Hlast.
    + split; [reflexivity | discriminate].
Qed.

Lemma phoneAt_inside prev a t :
  a <> [] -> isDigitChar (prevAfter None a) = false ->
  phoneAt prev (a ++ t) = phoneAt prev a /\
  (phoneAt prev a = true ->
   firstn 10 (a ++ t) = firstn 10 a /\ skipn 10 (a ++ t) = skipn 10 a ++ t /\
   skipn 10 a <> [] /\ length (skipn 10 a) < length a).
Proof.
  intros Hne Hlast.
  destruct (takeClass_inside digitClass 10 a t Hne Hlast) as [Happ Hr].
  unfold phoneAt. rewrite Happ.
  destruct (takeClass digitClass 10 a) as [r|] eqn:E.
  - specialize (Hr r eq_refl).
    apply takeClass_Some in E as (Hs & Hlen & Hall & Hsk).
    split.
    + destruct r; [congruence|]. reflexivity.
    + intros _. rewrite length_firstn in Hlen.
      assert (10 <= length a) by lia.
      rewrite firstn_app, skipn_app.
      replace (10 - length a) with 0 by lia.
      change (firstn 0 t) with (@nil N). change (skipn 0 t) with t.
      rewrite app_nil_r.
      repeat split; auto.
      * congruence.
      * rewrite length_skipn. lia.
  - split; [reflexivity|]. rewrite andb_false_r. discriminate.
Qed.

Lemma prevAfter_skipn prev a n :
  skipn n a <> [] -> prevAfter prev a = prevAfter None (skipn n a).
Proof.
  intros H. rewrite <- (firstn_skipn n a) at 1. rewrite prevAfter_app.
  apply prevAfter_nonempty, H.
Qed.

(** The substitution acts on each maximal run of digits on its own. *)
Lemma RP_run d post : forall pre prev,
  isDigitChar (prevAfter prev pre) = false ->
  d <> [] -> forallb (classMatches digitClass) d = true ->
  isDigitChar (hd_error post) = false ->
  RP prev (pre ++ d ++ post) =
  RP prev pre
  ++ redactedRun (prevAfter prev pre) d (hd_error post)
  ++ RP (prevAfter None d) post.
Proof.
  intros pre. remember (length pre) as n eqn:Hn. revert pre Hn.
  induction n as [n IH] using lt_wf_ind.
  intros pre Hn prev Hlast Hne Hd Hpost.
  destruct pre as [|c pre].
  - simpl in *. rewrite RP_nil. simpl. unfold redactedRun.
    rewrite <- (phoneAt_run prev d post Hd Hpost).
    destruct (phoneAt prev (d ++ post)) eqn:E.
    + rewrite RP_hit by exact E.
      rewrite (phoneAt_run prev d post Hd Hpost) in E.
      apply andb_true_iff in E as [E _]. apply andb_true_iff in E as [E _].
      apply Nat.eqb_eq in E.
      rewrite firstn_app, skipn_app, E, Nat.sub_diag.
      rewrite firstn_all2, skipn_all2 by lia.
      change (firstn 0 post) with (@nil N). change (skipn 0 post) with post.
      rewrite app_nil_r. cbn [app].
      f_equal. f_equal. apply prevAfter_nonempty, Hne.
    + destruct d as [|c d]; [congruence|]. simpl in *.
      apply andb_true_iff in Hd as [Hc Hd].
      rewrite RP_skip by exact E. f_equal.
      apply RP_digits; auto. simpl. apply digit_word, Hc.
  - assert (Hne' : c :: pre <> []) by discriminate.
    assert (Hlast' : isDigitChar (prevAfter None (c :: pre)) = false)
      by exact Hlast.
    destruct (phoneAt_inside prev (c :: pre) (d ++ post) Hne' Hlast')
      as [Heq Hin].
    destruct (phoneAt prev (c :: pre)) eqn:E.
    + destruct (Hin eq_refl) as (Hf & Hs & Hsne & Hlen).
      rewrite (RP_hit prev ((c :: pre) ++ d ++ post)) by exact Heq.
      rewrite (RP_hit prev (c :: pre)) by exact E.
      rewrite Hf, Hs, <- app_assoc. f_equal.
      rewrite (prevAfter_skipn prev (c :: pre) 10 Hsne).
      rewrite (prevAfter_nonempty None
                 (prevAfter prev (firstn 10 (c :: pre))) _ Hsne).
      eapply IH; eauto.
      * subst n. exact Hlen.
      * rewrite <- (prevAfter_nonempty None _ _ Hsne).
        rewrite <- (prevAfter_skipn prev (c :: pre) 10 Hsne). exact Hlast.
    + rewrite <- app_comm_cons.
      rewrite (RP_skip prev c (pre ++ d ++ post)) by exact Heq.
      rewrite (RP_skip prev c pre) by exact E.
      simpl. f_equal. eapply IH; eauto. subst n. simpl. lia.
Qed.

(** *** The phone substitution leaves its own output alone *)

(** A run of digits that opens the output opened the input, and the
    output goes on as the substitution of what follows it. *)
Lemma RP_digit_prefix n : forall s prev r,
  0 < n ->
  takeClass digitClass n (RP prev s) = Some r ->
  exists r0, takeClass digitClass n s = Some r0 /\
    r = RP (prevAfter prev (firstn n s)) r0.
Proof.
  induction n as [|n IH]; intros s prev r Hpos H; [lia|].
  destruct (phoneAt prev s) eqn:E.
  - rewrite RP_hit in H by exact E. unfold PHONE_REDACTED in H.
    simpl in H. discriminate.
  - destruct s as [|c s]; [rewrite RP_nil in H; simpl in H; discriminate|].
    rewrite RP_skip in H by exact E.
    cbn [takeClass firstn prevAfter] in H |- *.
    destruct (classMatches digitClass c); [|discriminate].
    destruct n as [|n].
    + cbn [takeClass firstn prevAfter] in H |- *. injection H as <-. eauto.
    + apply IH in H; [|lia]. exact H.
Qed.

Lemma RP_hd prev s :
  isWordChar prev = true -> hd_error (RP prev s) = hd_error s.
Proof.
  intros H. destruct s as [|c s]; [rewrite RP_nil; reflexivity|].
  rewrite RP_skip by (apply phoneAt_word, H). reflexivity.
Qed.

Lemma phoneAt_output prev prev' s :
  isWordChar prev' = isWordChar prev ->
  phoneAt prev' (RP prev s) = true -> phoneAt prev s = true.
Proof.
  unfold phoneAt. intros Hp H. rewrite Hp in H.
  apply andb_true_iff in H as [Hw H]. rewrite Hw. cbn [negb andb].
  destruct (takeClass digitClass 10 (RP prev s)) as [r|] eqn:E; [|discriminate].
  apply RP_digit_prefix in E as (r0 & E0 & ->); [|lia].
  rewrite E0.
  apply takeClass_Some in E0 as (Hs & Hlen & Hall & _).
  assert (Hne : firstn 10 s <> [])
    by (intros H0; rewrite H0 in Hlen; discriminate).
  destruct (prevAfter_class digitClass prev _ Hall Hne) as (c9 & Hc9 & Hd9).
  rewrite Hc9 in H. rewrite RP_hd in H; auto.
  simpl. apply digit_word, Hd9.
Qed.

Lemma PHONE_REDACTED_nondigits :
  forallb (fun c => negb (classMatches digitClass c)) PHONE_REDACTED = true.
Proof. reflexivity. Qed.

Lemma phoneAt_skipn_nondigit prev s :
  phoneAt prev s = true -> isDigitChar (hd_error (skipn 10 s)) = false.
Proof.
  unfold phoneAt. intros H. apply andb_true_iff in H as [_ H].
  destruct (takeClass digitClass 10 s) as [r|] eqn:E; [|discriminate].
  apply takeClass_Some in E as (_ & _ & _ & <-).
  apply negb_true_iff in H.
  destruct (isDigitChar (hd_error r)) eqn:D; auto.
  apply isDigitChar_word in D. congruence.
Qed.

Lemma RP_idempotent_from s : forall prev prev',
  isWordChar prev' = isWordChar prev \/ isDigitChar (hd_error s) = false ->
  RP prev' (RP prev s) = RP prev s.
Proof.
  remember (length s) as n eqn:Hn. revert s Hn.
  induction n as [n IH] using lt_wf_ind. intros s Hn prev prev' Hp.
  destruct (phoneAt prev s) eqn:E.
  - rewrite (RP_hit prev s) by exact E.
    rewrite RP_nondigits by exact PHONE_REDACTED_nondigits. f_equal.
    eapply IH; [|reflexivity|].
    + subst n. apply phoneAt_length in E. rewrite length_skipn. lia.
    + right. eapply phoneAt_skipn_nondigit, E.
  - destruct s as [|c s]; [rewrite !RP_nil; reflexivity|].
    rewrite (RP_skip prev c s) by exact E.
    assert (E' : phoneAt prev' (c :: RP (Some c) s) = false).
    { destruct (phoneAt prev' (c :: RP (Some c) s)) eqn:E'; auto.
      destruct Hp as [Hp|Hp].
      - rewrite <- (RP_skip prev c s E) in E'.
        apply (phoneAt_output prev prev' (c :: s) Hp) in E'. congruence.
      - rewrite phoneAt_nondigit in E'; [discriminate | exact Hp]. }
    rewrite RP_skip by exact E'. f_equal.
    eapply IH; [|reflexivity|]; [subst n; simpl; lia | left; reflexivity].
Qed.


(** *** The phone substitution across a word boundary *)

Lemma takeClass_boundary cls n : forall a t,
  inClassOpt cls (hd_error t) = false ->
  takeClass cls n (a ++ t)
  = match takeClass cls n a with Some r => Some (r ++ t) | None => None end.
Proof.
  induction n as [|n IH]; intros a t Ht; [reflexivity|].
  destruct a as [|c a]; cbn [app takeClass].
  - destruct t as [|c t]; [reflexivity|]. simpl in Ht. rewrite Ht. reflexivity.
  - destruct (classMatches cls c); [apply IH, Ht | reflexivity].
Qed.

Lemma nonword_nondigit o : isWordChar o = false -> inClassOpt digitClass o = false.
Proof.
  destruct o as [c|]; cbn [isWordChar inClassOpt]; auto. intros H.
  destruct (classMatches digitClass c) eqn:E; auto.
  apply digit_word in E. congruence.
Qed.

(** What follows a text does not change the test inside it, as long as
    it starts with no word character. *)
Lemma phoneAt_boundary prev a t :
  isWordChar (hd_error t) = false -> phoneAt prev (a ++ t) = phoneAt prev a.
Proof.
  intros Ht. unfold phoneAt.
  rewrite takeClass_boundary by (apply nonword_nondigit, Ht).
  destruct (takeClass digitClass 10 a) as [r|]; [|reflexivity].
  destruct r; [simpl; rewrite Ht|]; reflexivity.
Qed.

Lemma RP_app_boundary pre : forall prev t,
  isWordChar (hd_error t) = false ->
  RP prev (pre ++ t) = RP prev pre ++ RP (prevAfter prev pre) t.
Proof.
  remember (length pre) as n eqn:Hn. revert pre Hn.
  induction n as [n IH] using lt_wf_ind. intros pre Hn prev t Ht.
  destruct pre as [|c pre]; [rewrite RP_nil; reflexivity|].
  assert (Hb := phoneAt_boundary prev (c :: pre) t Ht).
  destruct (phoneAt prev (c :: pre)) eqn:E.
  - assert (Hlen := phoneAt_length _ _ E).
    rewrite (RP_hit prev ((c :: pre) ++ t)) by exact Hb.
    rewrite (RP_hit prev (c :: pre)) by exact E.
    rewrite firstn_app, skipn_app.
    replace (10 - length (c :: pre)) with 0 by lia.
    change (firstn 0 t) with (@nil N). change (skipn 0 t) with t.
    rewrite app_nil_r, <- app_assoc. f_equal.
    rewrite (IH (length (skipn 10 (c :: pre)))); auto.
    + rewrite <- prevAfter_app, firstn_skipn. reflexivity.
    + subst n. rewrite length_skipn. lia.
  - rewrite <- app_comm_cons.
    rewrite (RP_skip prev c (pre ++ t)) by exact Hb.
    rewrite (RP_skip prev c pre) by exact E.
    cbn [app prevAfter]. f_equal. eapply IH; eauto. subst n. simpl. lia.
Qed.


(** ** The email pattern *)

Lemma app_longer (u v u' v' : list N) :
  u ++ v = u' ++ v' -> length u < length u' ->
  exists w, w <> [] /\ u' = u ++ w /\ v = w ++ v'.
Proof.
  revert u'. induction u as [|c u IH]; intros u' H Hlt.
  - simpl in *. exists u'. destruct u'; [simpl in Hlt; lia|].
    repeat split; auto. discriminate.
  - destruct u' as [|c' u']; [simpl in Hlt; lia|].
    simpl in *. injection H as <- H.
    destruct (IH u' H) as (w & Hw & -> & ->); [lia|].
    exists w. auto.
Qed.

Lemma singleton_class (a : ascii) u :
  forallb (classMatches [CharOne a]) u = true ->
  1 <= length u -> length u <= 1 -> u = [charCode a].
Proof.
  destruct u as [|c [|c' u]]; simpl; intros H H1 H2; try lia.
  rewrite andb_true_r in H. unfold classMatches in H. simpl in H.
  rewrite orb_false_r in H. apply N.eqb_eq in H. congruence.
Qed.

(** A match of the email pattern is an email. *)
Lemma email_sound prev s prev' s' :
  matchAt emailRegex (prev, s) = Some (prev', s') ->
  exists l dm t,
    s = l ++ 64%N :: dm ++ 46%N :: t ++ s' /\
    l <> [] /\ forallb (classMatches emailLocalClass) l = true /\
    dm <> [] /\ forallb (classMatches emailDomainClass) dm = true /\
    2 <= length t /\ forallb (classMatches letterClass) t = true.
Proof.
  unfold matchAt, emailRegex. cbn [matchPattern fst snd]. intros H.
  apply repeatMatcher_Some in H; [|exact I].
  destruct H as (l & v1 & -> & Hl & Hlmin & _ & H & _).
  cbn [matchPattern fst snd] in H.
  apply repeatMatcher_Some in H; [|simpl; lia].
  destruct H as (a & v2 & -> & Ha & Hamin & Hamax & H & _).
  apply singleton_class in Ha; auto. subst a.
  cbn [matchPattern fst snd] in H.
  apply repeatMatcher_Some in H; [|exact I].
  destruct H as (dm & v3 & -> & Hdm & Hdmin & _ & H & _).
  cbn [matchPattern fst snd] in H.
  apply repeatMatcher_Some in H; [|simpl; lia].
  destruct H as (b & v4 & -> & Hb & Hbmin & Hbmax & H & _).
  apply singleton_class in Hb; auto. subst b.
  cbn [matchPattern fst snd] in H.
  apply repeatMatcher_Some in H; [|exact I].
  destruct H as (t & v5 & -> & Ht & Htmin & _ & H & _).
  cbn [matchPattern] in H. injection H as _ <-.
  exists l, dm, t. repeat split; auto.
  - destruct l; [simpl in Hlmin; lia | discriminate].
  - destruct dm; [simpl in Hdmin; lia | discriminate].
Qed.

Lemma email_hit_shorter prev s r :
  matchAt emailRegex (prev, s) = Some r -> length (snd r) < length s.
Proof.
  destruct r as [prev' s']. intros H.
  apply email_sound in H as (l & dm & t & -> & _).
  simpl. rewrite length_app. simpl. rewrite length_app. simpl.
  rewrite length_app. lia.
Qed.

(** Where an email starts, the pattern matches. *)
Lemma email_complete prev s :
  EmailPrefix s -> matchAt emailRegex (prev, s) <> None.
Proof.
  intros (l & dm & t & r & -> & Hl0 & Hl & Hd0 & Hdm & Ht2 & Ht) H.
  unfold matchAt, emailRegex in H. cbn [matchPattern fst snd] in H.
  apply (repeatMatcher_None _ _ _ _ _ _ H l (64%N :: dm ++ 46%N :: t ++ r))
    in Hl; [|reflexivity| |exact I].
  2:{ destruct l; [congruence | simpl; lia]. }
  cbn [matchPattern fst snd] in Hl.
  assert (H2 := repeatMatcher_None _ _ _ _ _ _ Hl [64%N] (dm ++ 46%N :: t ++ r)
                  eq_refl eq_refl (le_n 1) (le_n 1)).
  cbn [matchPattern fst snd] in H2.
  apply (repeatMatcher_None _ _ _ _ _ _ H2 dm (46%N :: t ++ r))
    in Hdm; [|reflexivity| |exact I].
  2:{ destruct dm; [congruence | simpl; lia]. }
  cbn [matchPattern fst snd] in Hdm.
  assert (H4 := repeatMatcher_None _ _ _ _ _ _ Hdm [46%N] (t ++ r)
                  eq_refl eq_refl (le_n 1) (le_n 1)).
  cbn [matchPattern fst snd] in H4.
  apply (repeatMatcher_None _ _ _ _ _ _ H4 t r) in Ht; [|reflexivity|exact Ht2|exact I].
  cbn [matchPattern] in Ht. discriminate.
Qed.

Lemma forallb_app_false (f : N -> bool) u c w :
  f c = false -> forallb f (u ++ c :: w) = false.
Proof.
  intros Hc. rewrite forallb_app. simpl. rewrite Hc.
  rewrite andb_false_r. reflexivity.
Qed.

(** ** No email survives either substitution *)

Lemma EmailPrefix_localThenAt s : EmailPrefix s -> localThenAt s = true.
Proof.
  intros (l & dm & t & r & -> & Hl0 & Hl & _).
  induction l as [|c l IH]; [congruence|].
  cbn [forallb] in Hl. apply andb_true_iff in Hl as [Hc Hl].
  cbn [app localThenAt]. rewrite Hc. cbn [andb].
  destruct l as [|c' l]; [reflexivity|].
  cbn [app] in IH |- *. rewrite IH; auto; [|discriminate].
  apply orb_true_r.
Qed.

Lemma EMAIL_REDACTED_split a b t :
  EMAIL_REDACTED = a ++ b -> b <> [] -> ~ EmailPrefix (b ++ t).
Proof.
  intros H Hne Hp. apply EmailPrefix_localThenAt in Hp.
  unfold EMAIL_REDACTED in H.
  do 16 (destruct a as [|? a];
         [simpl in H; subst b; discriminate Hp
         |simpl in H; injection H as <- H]).
  destruct a; [|discriminate]. simpl in H. congruence.
Qed.

Lemma PHONE_REDACTED_split a b t :
  PHONE_REDACTED = a ++ b -> b <> [] -> ~ EmailPrefix (b ++ t).
Proof.
  intros H Hne Hp. apply EmailPrefix_localThenAt in Hp.
  unfold PHONE_REDACTED in H.
  do 16 (destruct a as [|? a];
         [simpl in H; subst b; discriminate Hp
         |simpl in H; injection H as <- H]).
  destruct a; [|discriminate]. simpl in H. congruence.
Qed.

(** The code units of an email: none is the bracket that opens a
    placeholder. *)
Lemma local_not_bracket c :
  classMatches emailLocalClass c = true -> negb (c =? 91)%N = true.
Proof.
  intros H. apply negb_true_iff, N.eqb_neq. class_lia.
Qed.

Lemma domain_not_bracket c :
  classMatches emailDomainClass c = true -> negb (c =? 91)%N = true.
Proof.
  intros H. apply negb_true_iff, N.eqb_neq. class_lia.
Qed.

Lemma letter_not_bracket c :
  classMatches letterClass c = true -> negb (c =? 91)%N = true.
Proof.
  intros H. apply negb_true_iff, N.eqb_neq. class_lia.
Qed.

Lemma forallb_impl (f g : N -> bool) u :
  (forall c, f c = true -> g c = true) ->
  forallb f u = true -> forallb g u = true.
Proof.
  intros Hfg. rewrite !forallb_forall. auto.
Qed.

Section Placeholder.

Variable p : Pattern.
Variable tok : jsstring.

Hypothesis hit_shorter :
  forall prev s r, matchAt p (prev, s) = Some r -> length (snd r) < length s.
Hypothesis tok_bracket : exists tok', tok = 91%N :: tok'.
Hypothesis tok_split :
  forall a b t, tok = a ++ b -> b <> [] -> ~ EmailPrefix (b ++ t).

(** Text without a bracket that opens the output opened the input. *)
Lemma replaceFrom_prefix w : forall s prev r,
  forallb (fun c => negb (c =? 91)%N) w = true ->
  replaceFrom p tok prev s = w ++ r ->
  exists r', s = w ++ r'.
Proof.
  induction w as [|x w IH]; intros s prev r Hw H; [exists s; reflexivity|].
  simpl in Hw. apply andb_true_iff in Hw as [Hx Hw].
  destruct (matchAt p (prev, s)) as [[prev' s']|] eqn:E.
  - rewrite (replaceFrom_hit _ _ _ _ _ _ E) in H
      by (apply (hit_shorter _ _ _ E)).
    destruct tok_bracket as [tok' ->]. simpl in H. injection H as <- _.
    discriminate.
  - destruct s as [|c s].
    + rewrite replaceFrom_nil in H by exact E. discriminate.
    + rewrite replaceFrom_skip in H by exact E. simpl in H.
      injection H as <- H. destruct (IH _ _ _ Hw H) as [r' ->].
      exists r'. reflexivity.
Qed.

Lemma EmailPrefix_input prev s :
  EmailPrefix (replaceFrom p tok prev s) -> EmailPrefix s.
Proof.
  intros (l & dm & t & r & H & Hl0 & Hl & Hd0 & Hdm & Ht2 & Ht).
  assert (Hw : forallb (fun c => negb (c =? 91)%N) (l ++ 64%N :: dm ++ 46%N :: t)
               = true).
  { rewrite forallb_app. simpl. rewrite forallb_app. simpl.
    rewrite (forallb_impl _ _ _ local_not_bracket Hl).
    rewrite (forallb_impl _ _ _ domain_not_bracket Hdm).
    rewrite (forallb_impl _ _ _ letter_not_bracket Ht). reflexivity. }
  replace (l ++ 64%N :: dm ++ 46%N :: t ++ r)
    with ((l ++ 64%N :: dm ++ 46%N :: t) ++ r) in H
    by (rewrite <- !app_assoc; simpl; rewrite <- app_assoc; reflexivity).
  destruct (replaceFrom_prefix _ _ _ _ Hw H) as [r' ->].
  exists l, dm, t, r'. repeat split; auto.
  rewrite <- !app_assoc. simpl. rewrite <- app_assoc. reflexivity.
Qed.

Lemma EmailsMatched_tail prev c s :
  EmailsMatched p prev (c :: s) -> EmailsMatched p (Some c) s.
Proof.
  intros H a b Hs. apply (H (c :: a) b). simpl. congruence.
Qed.

Lemma EmailsMatched_after prev s r :
  matchAt p (prev, s) = Some r ->
  EmailsMatched p prev s -> EmailsMatched p (fst r) (snd r).
Proof.
  intros E H a b Hs.
  apply matchAt_Advances in E as (u & Hu & Hp). simpl in Hu, Hp.
  rewrite Hp, <- prevAfter_app. apply H.
  rewrite Hu, Hs, app_assoc. reflexivity.
Qed.

Lemma app_split_tok (a b o : list N) :
  a ++ b = tok ++ o ->
  (exists b1, b1 <> [] /\ tok = a ++ b1 /\ b = b1 ++ o)
  \/ (exists a', a = tok ++ a' /\ o = a' ++ b).
Proof.
  intros H. apply app_eq_app in H as [w [[-> ->]|[-> ->]]].
  - right. eauto.
  - destruct w as [|x w].
    + right. exists []. rewrite !app_nil_r. auto.
    + left. exists (x :: w). repeat split; auto. discriminate.
Qed.

(** If the pattern matches wherever an email starts in the input, no
    email starts anywhere in the output. *)
Lemma NoEmail_replaceFrom s : forall prev,
  EmailsMatched p prev s -> NoEmail (replaceFrom p tok prev s).
Proof.
  remember (length s) as n eqn:Hn. revert s Hn.
  induction n as [n IH] using lt_wf_ind. intros s Hn prev Hok.
  destruct (matchAt p (prev, s)) as [[prev' s']|] eqn:E.
  - assert (Hlt := hit_shorter _ _ _ E). simpl in Hlt.
    rewrite (replaceFrom_hit _ _ _ _ _ _ E Hlt).
    intros a b Hab.
    destruct (app_split_tok _ _ _ (eq_sym Hab))
      as [(b1 & Hb1 & Htok & ->)|(a' & -> & Ho)].
    + eapply tok_split; eauto.
    + clear Hab. revert a' b Ho.
      eapply (IH (length s')); [subst n; exact Hlt | reflexivity |].
      apply (EmailsMatched_after _ _ _ E Hok).
  - destruct s as [|c s].
    + rewrite replaceFrom_nil by exact E.
      intros a b Hab. destruct a; [|discriminate]. simpl in Hab. subst b.
      apply (Hok [] []); auto.
    + rewrite replaceFrom_skip by exact E.
      intros a b Hab. destruct a as [|c' a].
      * simpl in Hab. subst b. rewrite <- (replaceFrom_skip _ _ _ _ _ E).
        intros Hp. apply EmailPrefix_input in Hp.
        revert Hp. apply (Hok [] (c :: s)); auto.
      * simpl in Hab. injection Hab as <- Hab. revert a b Hab.
        eapply (IH (length s)); [subst n; simpl; lia | reflexivity |].
        eapply EmailsMatched_tail, Hok.
Qed.

End Placeholder.

Lemma NoEmail_tail c s : NoEmail (c :: s) -> NoEmail s.
Proof. intros H a b Hs. apply (H (c :: a) b). simpl. congruence. Qed.

(** A text in which no email starts is left alone by the email
    substitution. *)
Lemma replaceFrom_email_NoEmail s : forall prev,
  NoEmail s -> replaceFrom emailRegex EMAIL_REDACTED prev s = s.
Proof.
  induction s as [|c s IH]; intros prev H.
  - apply replaceFrom_nil. reflexivity.
  - assert (E : matchAt emailRegex (prev, c :: s) = None).
    { destruct (matchAt emailRegex (prev, c :: s)) as [[prev' s']|] eqn:E; auto.
      exfalso. apply (H [] (c :: s) eq_refl).
      apply email_sound in E as (l & dm & t & Hs & Hrest).
      exists l, dm, t, s'. auto. }
    rewrite replaceFrom_skip by exact E. f_equal.
    apply IH. eapply NoEmail_tail, H.
Qed.

Lemma phone_hit_shorter prev s r :
  matchAt phoneRegex (prev, s) = Some r -> length (snd r) < length s.
Proof.
  rewrite matchAt_phone. destruct (phoneAt prev s) eqn:E; [|discriminate].
  intros [= <-]. change (length (skipn 10 s) < length s).
  apply phoneAt_length in E. rewrite length_skipn. lia.
Qed.

Lemma NoEmail_redactEmails x : NoEmail (redactEmails x).
Proof.
  apply NoEmail_replaceFrom.
  - apply email_hit_shorter.
  - eexists. reflexivity.
  - apply EMAIL_REDACTED_split.
  - intros a b _ Hnone Hp. revert Hnone. apply email_complete, Hp.
Qed.

Lemma NoEmail_redactPhones x : NoEmail x -> NoEmail (redactPhones x).
Proof.
  intros H. apply NoEmail_replaceFrom.
  - apply phone_hit_shorter.
  - eexists. reflexivity.
  - apply PHONE_REDACTED_split.
  - intros a b Hs _. apply (H a b Hs).
Qed.

Lemma redactEmails_fixed x : NoEmail x -> redactEmails x = x.
Proof. apply replaceFrom_email_NoEmail. Qed.

Lemma redactPhones_idempotent x : redactPhones (redactPhones x) = redactPhones x.
Proof. apply RP_idempotent_from. left. reflexivity. Qed.

Lemma sanitizeInput_fixed x : sanitizeInput (sanitizeInput x) = sanitizeInput x.
Proof.
  unfold sanitizeInput.
  rewrite (redactEmails_fixed (redactPhones (redactEmails x))).
  - apply redactPhones_idempotent.
  - apply NoEmail_redactPhones, NoEmail_redactEmails.
Qed.


(** ** An email in its context *)

(** Followed by a code unit that cannot go on a domain (or by nothing),
    an email is matched from its first to its last code unit. *)
Lemma email_exact prev l dm t post :
  l <> [] -> forallb (classMatches emailLocalClass) l = true ->
  dm <> [] -> forallb (classMatches emailDomainClass) dm = true ->
  2 <= length t -> forallb (classMatches letterClass) t = true ->
  inClassOpt emailDomainClass (hd_error post) = false ->
  matchAt emailRegex (prev, l ++ 64%N :: dm ++ 46%N :: t ++ post)
  = Some (prevAfter None t, post).
Proof.
  intros Hl0 Hl Hd0 Hdm Ht2 Ht Hpost.
  assert (Hpost_letter : inClassOpt letterClass (hd_error post) = false).
  { destruct post as [|c post]; [reflexivity|].
    cbn [hd_error inClassOpt] in *. class_lia. }
  assert (Hpost_dot : forall v, post = 46%N :: v -> False).
  { intros v ->. simpl in Hpost. discriminate. }
  unfold matchAt, emailRegex. cbn [matchPattern fst snd].
  apply repeatMatcher_greedy
    with (u := l) (v := 64%N :: dm ++ 46%N :: t ++ post);
    [exact I | reflexivity | exact Hl
    | destruct l; [congruence | simpl; lia] | exact I | | ].
  2:{ intros u' v' Hs Hu' Hlt _.
      destruct (app_longer _ _ _ _ Hs Hlt) as (w & Hw & -> & Hv).
      destruct w as [|c w]; [congruence|]. simpl in Hv. injection Hv as <- _.
      rewrite forallb_app_false in Hu'; [discriminate | reflexivity]. }
  cbv beta. cbn [fst snd].
  apply repeatMatcher_greedy with (u := [64%N]) (v := dm ++ 46%N :: t ++ post);
    [simpl; lia | reflexivity | reflexivity | simpl; lia | simpl; lia | | ].
  2:{ intros u' v' _ _ Hlt Hmax. simpl in Hlt, Hmax. lia. }
  cbv beta. cbn [fst snd].
  apply repeatMatcher_greedy with (u := dm) (v := 46%N :: t ++ post);
    [exact I | reflexivity | exact Hdm
    | destruct dm; [congruence | simpl; lia] | exact I | | ].
  2:{ intros u' v' Hs Hu' Hlt _.
      destruct (app_longer _ _ _ _ Hs Hlt) as (w & Hw & -> & Hv).
      destruct w as [|c w]; [congruence|]. simpl in Hv. injection Hv as <- Hv.
      cbv beta. cbn [fst snd].
      destruct v' as [|c v']; [reflexivity|].
      assert (Hdot : classMatches [CharOne "."] c = false).
      { rewrite forallb_app in Hu'. apply andb_true_iff in Hu' as [_ Hw'].
        cbn [forallb] in Hw'. apply andb_true_iff in Hw' as [_ Hw'].
        apply app_eq_app in Hv as [x [[Hx1 Hx2]|[Hx1 Hx2]]].
        - (* the rest starts inside or right after the letters *)
          destruct x as [|y x].
          + simpl in Hx2. rewrite app_nil_r in Hx1. subst.
            destruct (classMatches [CharOne "."] c) eqn:E; auto.
            apply dot_spec in E. subst c. exfalso. eapply Hpost_dot; eauto.
          + simpl in Hx2. injection Hx2 as <- _. subst t.
            rewrite forallb_app in Ht. apply andb_true_iff in Ht as [_ Ht].
            cbn [forallb] in Ht. apply andb_true_iff in Ht as [Ht _].
            class_lia.
        - (* a domain character would stand where the email ends *)
          destruct x as [|y x].
          + simpl in Hx2. rewrite app_nil_r in Hx1. subst.
            destruct (classMatches [CharOne "."] c) eqn:E; auto.
            apply dot_spec in E. subst c. exfalso. eapply Hpost_dot; eauto.
          + exfalso. subst w post. rewrite forallb_app in Hw'.
            apply andb_true_iff in Hw' as [_ Hw'].
            cbn [forallb app hd_error inClassOpt] in Hw', Hpost.
            apply andb_true_iff in Hw' as [Hy _]. congruence. }
      cbn [repeatMatcher]. rewrite Hdot. reflexivity. }
  cbv beta. cbn [fst snd].
  apply repeatMatcher_greedy with (u := [46%N]) (v := t ++ post);
    [simpl; lia | reflexivity | reflexivity | simpl; lia | simpl; lia | | ].
  2:{ intros u' v' _ _ Hlt Hmax. simpl in Hlt, Hmax. lia. }
  cbv beta. cbn [fst snd].
  apply repeatMatcher_greedy with (u := t) (v := post);
    [exact I | reflexivity | exact Ht | exact Ht2 | exact I | | ].
  - cbv beta. f_equal. f_equal.
    apply prevAfter_nonempty. destruct t; [simpl in Ht2; lia | discriminate].
  - intros u' v' Hs Hu' Hlt _. exfalso.
    destruct (app_longer _ _ _ _ Hs Hlt) as (w & Hw & -> & Hv).
    rewrite forallb_app in Hu'. apply andb_true_iff in Hu' as [_ Hu'].
    destruct w as [|c w]; [congruence|]. subst post.
    cbn [forallb app hd_error inClassOpt] in Hu', Hpost_letter.
    apply andb_true_iff in Hu' as [Hc _]. congruence.
Qed.

(** No email starts inside a text without [@] that does not end in a
    character of the local class, whatever follows the text. *)
Lemma no_email_before_at a rest :
  a <> [] ->
  forallb (fun c => negb (c =? 64)%N) a = true ->
  inClassOpt emailLocalClass (prevAfter None a) = false ->
  ~ EmailPrefix (a ++ rest).
Proof.
  intros Ha Hat Hlast (l & dm & t & r & Hs & Hl0 & Hl & _).
  assert (Hlocal : forallb (classMatches emailLocalClass) a = true -> False).
  { intros Hal.
    destruct (prevAfter_class emailLocalClass None a Hal Ha) as (c & Hc & Hcl).
    rewrite Hc in Hlast. cbn [inClassOpt] in Hlast. congruence. }
  apply app_eq_app in Hs as [x [[Hx1 Hx2]|[Hx1 Hx2]]].
  - destruct x as [|y x].
    + rewrite app_nil_r in Hx1. subst a. auto.
    + simpl in Hx2. injection Hx2 as <- _. subst a.
      rewrite forallb_app in Hat. apply andb_true_iff in Hat as [_ Hat].
      simpl in Hat. discriminate.
  - subst l. rewrite forallb_app in Hl. apply andb_true_iff in Hl as [Hl _].
    auto.
Qed.

Abbreviation RE := (replaceFrom emailRegex EMAIL_REDACTED).

(** Such a text is copied by the email substitution. *)
Lemma RE_copy pre : forall prev rest,
  forallb (fun c => negb (c =? 64)%N) pre = true ->
  inClassOpt emailLocalClass (prevAfter None pre) = false ->
  RE prev (pre ++ rest) = pre ++ RE (prevAfter prev pre) rest.
Proof.
  induction pre as [|c pre IH]; intros prev rest Hat Hlast; [reflexivity|].
  assert (E : matchAt emailRegex (prev, (c :: pre) ++ rest) = None).
  { destruct (matchAt emailRegex (prev, (c :: pre) ++ rest))
      as [[prev' s']|] eqn:E; auto.
    exfalso. apply (no_email_before_at (c :: pre) rest); auto; [discriminate|].
    apply email_sound in E as (l & dm & t & Hs & Hrest).
    exists l, dm, t, s'. auto. }
  cbn [app] in E |- *. rewrite replaceFrom_skip by exact E.
  cbn [prevAfter]. f_equal. apply IH.
  - simpl in Hat. apply andb_true_iff in Hat as [_ Hat]. exact Hat.
  - destruct pre as [|c' pre]; [reflexivity | exact Hlast].
Qed.

(** The email pattern has no [\b]: what stands before a position plays
    no part. *)
Lemma repeatMatcher_PrevBlind cls min max k :
  PrevBlind k ->
  PrevBlind (fun st => repeatMatcher cls min max k (fst st) (snd st)).
Proof.
  intros Hk prev prev' s. cbn [fst snd].
  destruct s as [|c s].
  - destruct max as [[|m]|]; destruct min; simpl; auto.
  - destruct max as [[|m]|]; simpl; auto;
      (destruct (classMatches cls c);
       [ match goal with
         | |- context [repeatMatcher ?a ?b ?c0 ?d ?e ?f] =>
           destruct (repeatMatcher a b c0 d e f)
         end; auto; destruct min; auto
       | destruct min; auto ]).
Qed.

Lemma matchAt_email_prev prev prev' s :
  option_map snd (matchAt emailRegex (prev, s))
  = option_map snd (matchAt emailRegex (prev', s)).
Proof.
  unfold matchAt, emailRegex. cbn [matchPattern].
  apply (repeatMatcher_PrevBlind emailLocalClass 1 None).
  apply (repeatMatcher_PrevBlind [CharOne "@"] 1 (Some 1)).
  apply (repeatMatcher_PrevBlind emailDomainClass 1 None).
  apply (repeatMatcher_PrevBlind [CharOne "."] 1 (Some 1)).
  apply (repeatMatcher_PrevBlind letterClass 2 None).
  intros p1 p2 s0. reflexivity.
Qed.

Lemma RE_prev s : forall prev prev', RE prev s = RE prev' s.
Proof.
  remember (length s) as n eqn:Hn. revert s Hn.
  induction n as [n IH] using lt_wf_ind. intros s Hn prev prev'.
  assert (H := matchAt_email_prev prev prev' s).
  destruct (matchAt emailRegex (prev, s)) as [[p1 s1]|] eqn:E1;
    destruct (matchAt emailRegex (prev', s)) as [[p2 s2]|] eqn:E2;
    simpl in H; try discriminate.
  - injection H as <-.
    assert (Hlt := email_hit_shorter _ _ _ E1). simpl in Hlt.
    rewrite (replaceFrom_hit _ _ _ _ _ _ E1 Hlt).
    rewrite (replaceFrom_hit _ _ _ _ _ _ E2 Hlt).
    f_equal. eapply IH; [|reflexivity]. subst n. exact Hlt.
  - destruct s as [|c s].
    + rewrite !replaceFrom_nil; auto.
    + rewrite (replaceFrom_skip _ _ _ _ _ E1), (replaceFrom_skip _ _ _ _ _ E2).
      reflexivity.
Qed.

(** The email substitution on an email in its context. *)
Lemma redactEmails_in_context pre l dm t post :
  forallb (fun c => negb (c =? 64)%N) pre = true ->
  inClassOpt emailLocalClass (prevAfter None pre) = false ->
  l <> [] -> forallb (classMatches emailLocalClass) l = true ->
  dm <> [] -> forallb (classMatches emailDomainClass) dm = true ->
  2 <= length t -> forallb (classMatches letterClass) t = true ->
  inClassOpt emailDomainClass (hd_error post) = false ->
  redactEmails (pre ++ l ++ 64%N :: dm ++ 46%N :: t ++ post)
  = pre ++ EMAIL_REDACTED ++ redactEmails post.
Proof.
  intros Hat Hlast Hl0 Hl Hd0 Hdm Ht2 Ht Hpost.
  unfold redactEmails, replace.
  rewrite RE_copy by assumption. f_equal.
  rewrite (replaceFrom_hit _ _ _ _ _ _
             (email_exact _ l dm t post Hl0 Hl Hd0 Hdm Ht2 Ht Hpost)).
  - f_equal. apply RE_prev.
  - rewrite length_app. simpl. rewrite length_app. simpl.
    rewrite length_app. lia.
Qed.


(** ** The Redactor: order of the substitutions, phone runs, idempotence *)

Lemma digits_local d :
  forallb (classMatches digitClass) d = true ->
  forallb (classMatches emailLocalClass) d = true.
Proof. apply forallb_impl. intros c H. class_lia. Qed.

(** An email in its context becomes the placeholder and nothing else:
    the text before it and the text after it are redacted on their
    own. *)
Lemma sanitizeInput_email_in_context pre l dm t post :
  forallb (fun c => negb (c =? 64)%N) pre = true ->
  inClassOpt emailLocalClass (prevAfter None pre) = false ->
  l <> [] -> forallb (classMatches emailLocalClass) l = true ->
  dm <> [] -> forallb (classMatches emailDomainClass) dm = true ->
  2 <= length t -> forallb (classMatches letterClass) t = true ->
  inClassOpt emailDomainClass (hd_error post) = false ->
  sanitizeInput (pre ++ l ++ 64%N :: dm ++ 46%N :: t ++ post)
  = redactPhones pre ++ EMAIL_REDACTED ++ sanitizeInput post.
Proof.
  intros Hat Hlast Hl0 Hl Hd0 Hdm Ht2 Ht Hpost.
  unfold sanitizeInput.
  rewrite (redactEmails_in_context pre l dm t post) by assumption.
  unfold redactPhones, replace.
  rewrite RP_app_boundary by reflexivity. f_equal.
  rewrite RP_nondigits by reflexivity. f_equal.
  apply RP_prev. left. reflexivity.
Qed.

(** C2. The email substitution runs first and the phone substitution
    runs on its result.  Hence an email whose local part is ten digits
    (standing after a text [pre] without [@] that does not end in a
    character of the local class, and before a text [post] that does not
    start with a character of the domain class) becomes
    [[EMAIL REDACTED]] and nothing else, the texts around it being
    redacted on their own: its digits are never replaced by
    [[PHONE REDACTED]].  Alone, such an email yields exactly
    [[EMAIL REDACTED]].  And the scenario
    ["my email is a@b.com call 9876543210"] yields
    ["my email is [EMAIL REDACTED] call [PHONE REDACTED]"]. *)
Theorem C2_email_then_phone (x pre d dm t post : list N) :
  forallb (fun c => negb (c =? 64)%N) pre = true ->
  inClassOpt emailLocalClass (prevAfter None pre) = false ->
  length d = 10 -> forallb (classMatches digitClass) d = true ->
  dm <> [] -> forallb (classMatches emailDomainClass) dm = true ->
  2 <= length t -> forallb (classMatches letterClass) t = true ->
  inClassOpt emailDomainClass (hd_error post) = false ->
  sanitizeInput x = redactPhones (redactEmails x)
  /\ redactEmails (pre ++ d ++ 64%N :: dm ++ 46%N :: t ++ post)
     = pre ++ EMAIL_REDACTED ++ redactEmails post
  /\ sanitizeInput (pre ++ d ++ 64%N :: dm ++ 46%N :: t ++ post)
     = redactPhones pre ++ EMAIL_REDACTED ++ sanitizeInput post
  /\ sanitizeInput (d ++ 64%N :: dm ++ 46%N :: t) = EMAIL_REDACTED
  /\ sanitizeInput (utf16 "my email is a@b.com call 9876543210")
     = utf16 "my email is [EMAIL REDACTED] call [PHONE REDACTED]".
Proof.
  intros Hat Hlast Hd10 Hd Hd0 Hdm Ht2 Ht Hpost.
  assert (Hdne : d <> []) by (destruct d; discriminate).
  assert (Hdl := digits_local d Hd).
  split; [reflexivity|].
  split; [apply redactEmails_in_context; assumption|].
  split; [apply sanitizeInput_email_in_context; assumption|].
  split; [|vm_compute; reflexivity].
  assert (H := sanitizeInput_email_in_context [] d dm t []
                 eq_refl eq_refl Hdne Hdl Hd0 Hdm Ht2 Ht eq_refl).
  rewrite app_nil_r in H. exact H.
Qed.

Lemma C2_email_then_phone_witness :
  sanitizeInput (utf16 "id 1234567890@x.com, tel 9876543210")
  = redactPhones (redactEmails (utf16 "id 1234567890@x.com, tel 9876543210"))
  /\ redactEmails (utf16 "id 1234567890@x.com, tel 9876543210")
     = utf16 "id " ++ EMAIL_REDACTED ++ redactEmails (utf16 ", tel 9876543210")
  /\ sanitizeInput (utf16 "id 1234567890@x.com, tel 9876543210")
     = redactPhones (utf16 "id ") ++ EMAIL_REDACTED
       ++ sanitizeInput (utf16 ", tel 9876543210")
  /\ sanitizeInput (utf16 "1234567890@x.com") = EMAIL_REDACTED
  /\ sanitizeInput (utf16 "my email is a@b.com call 9876543210")
     = utf16 "my email is [EMAIL REDACTED] call [PHONE REDACTED]".
Proof.
  apply (C2_email_then_phone (utf16 "id 1234567890@x.com, tel 9876543210")
           (utf16 "id ") (utf16 "1234567890") (utf16 "x") (utf16 "com")
           (utf16 ", tel 9876543210"));
    solve [reflexivity | discriminate | vm_compute; lia].
Defined.

Lemma redactEmails_without_at x :
  forallb (fun c => negb (c =? 64)%N) x = true -> redactEmails x = x.
Proof.
  intros Hx. apply redactEmails_fixed.
  intros a b -> (l & dm & t & r & -> & _).
  rewrite !forallb_app in Hx. apply andb_true_iff in Hx as [_ Hx].
  apply andb_true_iff in Hx as [_ Hx]. simpl in Hx. discriminate.
Qed.

(** C3 (amended). The phone substitution acts on the text the email
    substitution produced.  Wherever that text is [pre ++ d ++ post] with
    [d] a maximal run of digits, the result is the substitution of
    [pre], then the placeholder [[PHONE REDACTED]] if [d] has exactly ten
    digits and no word character stands right before or right after it,
    and [d] unchanged otherwise (nine or eleven digits, or a letter,
    digit or underscore next to it), then the substitution of [post].
    On an input without [@] that text is the input itself. *)
Theorem C3_phone_runs (x pre d post : list N) :
  redactEmails x = pre ++ d ++ post ->
  d <> [] -> forallb (classMatches digitClass) d = true ->
  isDigitChar (prevAfter None pre) = false ->
  isDigitChar (hd_error post) = false ->
  sanitizeInput x =
  redactPhones pre
  ++ (if (length d =? 10)
         && negb (isWordChar (prevAfter None pre))
         && negb (isWordChar (hd_error post))
      then PHONE_REDACTED
      else d)
  ++ redactPhones post
  /\ (forallb (fun c => negb (c =? 64)%N) x = true -> redactEmails x = x).
Proof.
  intros He Hd0 Hd Hpre Hpost. split; [|apply redactEmails_without_at].
  unfold sanitizeInput. rewrite He.
  unfold redactPhones, replace.
  rewrite (RP_run d post pre None Hpre Hd0 Hd Hpost).
  unfold redactedRun. do 2 f_equal. apply RP_prev. right. exact Hpost.
Qed.

Lemma C3_phone_runs_witness :
  sanitizeInput (utf16 "call 9876543210 or 12345678901")
  = redactPhones (utf16 "call ")
    ++ (if (length (utf16 "9876543210") =? 10)
           && negb (isWordChar (prevAfter None (utf16 "call ")))
           && negb (isWordChar (hd_error (utf16 " or 12345678901")))
        then PHONE_REDACTED
        else utf16 "9876543210")
    ++ redactPhones (utf16 " or 12345678901")
  /\ (forallb (fun c => negb (c =? 64)%N)
        (utf16 "call 9876543210 or 12345678901") = true ->
      redactEmails (utf16 "call 9876543210 or 12345678901")
      = utf16 "call 9876543210 or 12345678901").
Proof.
  apply (C3_phone_runs (utf16 "call 9876543210 or 12345678901")
           (utf16 "call ") (utf16 "9876543210") (utf16 " or 12345678901"));
    solve [reflexivity | discriminate].
Defined.

(** C3, as stated of the whole Redactor, fails.  In ["a@b.co1234567890"]
    the ten digits follow the letter [o], yet they are replaced: the
    email substitution has put a bracket before them by the time the
    phone pattern is tried.  And in ["1234567890@x.com"] the ten digits
    stand between word boundaries, yet no [[PHONE REDACTED]] appears. *)
Lemma C3_counterexample :
  utf16 "a@b.co1234567890" = utf16 "a@b.co" ++ utf16 "1234567890"
  /\ isWordChar (prevAfter None (utf16 "a@b.co")) = true
  /\ sanitizeInput (utf16 "a@b.co1234567890")
     = utf16 "[EMAIL REDACTED][PHONE REDACTED]"
  /\ includes (sanitizeInput (utf16 "a@b.co1234567890")) (utf16 "1234567890")
     = false
  /\ phoneAt None (utf16 "1234567890@x.com") = true
  /\ includes (sanitizeInput (utf16 "1234567890@x.com")) PHONE_REDACTED
     = false.
Proof. repeat split; vm_compute; reflexivity. Qed.

(** C4. The Redactor is idempotent. *)
Theorem C4_sanitizeInput_idempotent (x : list N) :
  sanitizeInput (sanitizeInput x) = sanitizeInput x.
Proof.
  unfold sanitizeInput at 1.
  rewrite (redactEmails_fixed (sanitizeInput x)).
  - apply redactPhones_idempotent.
  - apply NoEmail_redactPhones, NoEmail_redactEmails.
Qed.


(** ** The ResponseResolver *)

Lemma startsWith_app w : forall b, startsWith (w ++ b) w = true.
Proof.
  induction w as [|c w IH]; intros b; [destruct b; reflexivity|].
  cbn [app startsWith]. rewrite N.eqb_refl. apply IH.
Qed.

Lemma includes_app a : forall w b, includes (a ++ w ++ b) w = true.
Proof.
  induction a as [|c a IH]; intros w b.
  - cbn [app]. destruct (w ++ b) eqn:E; cbn [includes];
      rewrite <- E, startsWith_app; reflexivity.
  - cbn [app includes]. rewrite IH. apply orb_true_r.
Qed.

(** Lower-casing works through the text from left to right. *)
Lemma lowerFrom_app tbl a : forall before s,
  exists a', lowerFrom tbl before (a ++ s)
             = a' ++ lowerFrom tbl (rev a ++ before) s.
Proof.
  induction a as [|c a IH]; intros before s.
  - exists []. reflexivity.
  - destruct (IH (c :: before) s) as [a' Ha'].
    exists ((if (c <? 128)%N then [asciiLower c]
             else tbl before c (a ++ s)) ++ a').
    simpl. rewrite Ha', <- !app_assoc. simpl. reflexivity.
Qed.

Lemma asciiLower_ascii c :
  (asciiLower c < 128)%N -> (c < 128)%N.
Proof.
  unfold asciiLower, charCode. simpl.
  destruct (_ && _)%bool; lia.
Qed.

(** An ASCII word is lower-cased letter by letter, whatever is around. *)
Lemma lowerFrom_ascii tbl w : forall before b,
  forallb (fun c => (c <? 128)%N) (map asciiLower w) = true ->
  lowerFrom tbl before (w ++ b)
  = map asciiLower w ++ lowerFrom tbl (rev w ++ before) b.
Proof.
  induction w as [|c w IH]; intros before b H.
  - reflexivity.
  - simpl in H. apply andb_true_iff in H as [Hc H].
    apply N.ltb_lt, asciiLower_ascii, N.ltb_lt in Hc.
    cbn [app lowerFrom map rev]. rewrite Hc, IH by exact H.
    rewrite <- !app_assoc. reflexivity.
Qed.

(** A Devanagari word is left as it is. *)
Lemma lowerFrom_devanagari tbl w : forall before b,
  DevanagariUncased tbl ->
  forallb (fun c => (2304 <=? c)%N && (c <=? 2431)%N) w = true ->
  lowerFrom tbl before (w ++ b)
  = w ++ lowerFrom tbl (rev w ++ before) b.
Proof.
  induction w as [|c w IH]; intros before b Hdev H.
  - reflexivity.
  - simpl in H. apply andb_true_iff in H as [Hc H].
    apply andb_true_iff in Hc as [Hlo Hhi].
    apply N.leb_le in Hlo, Hhi.
    cbn [app lowerFrom rev].
    destruct (N.ltb_spec c 128); [lia|].
    rewrite Hdev by lia. rewrite IH by auto.
    rewrite <- !app_assoc. reflexivity.
Qed.

Lemma includes_lower_anycase tbl q kw :
  forallb (fun c => (c <? 128)%N) kw = true ->
  ContainsAnyCase q kw -> includes (toLowerCase tbl q) kw = true.
Proof.
  intros Hkw (a & w & b & -> & <-). unfold toLowerCase.
  destruct (lowerFrom_app tbl a [] (w ++ b)) as [a' ->].
  rewrite lowerFrom_ascii by exact Hkw. apply includes_app.
Qed.

Lemma includes_lower_devanagari tbl q kw :
  DevanagariUncased tbl ->
  forallb (fun c => (2304 <=? c)%N && (c <=? 2431)%N) kw = true ->
  Contains q kw -> includes (toLowerCase tbl q) kw = true.
Proof.
  intros Hdev Hkw (a & b & ->). unfold toLowerCase.
  destruct (lowerFrom_app tbl a [] (kw ++ b)) as [a' ->].
  rewrite lowerFrom_devanagari by auto. apply includes_app.
Qed.

Lemma matchesPassword_keyword tbl q :
  DevanagariUncased tbl ->
  ContainsAnyCase q kw_password \/ Contains q kw_password_deva ->
  matchesPassword tbl q = true.
Proof.
  intros Hdev [H|H]; unfold matchesPassword.
  - rewrite (includes_lower_anycase tbl q kw_password); auto.
  - rewrite (includes_lower_devanagari tbl q kw_password_deva); auto.
    apply orb_true_r.
Qed.

Lemma matchesPrivacy_keyword tbl q :
  DevanagariUncased tbl ->
  ContainsAnyCase q kw_privacy \/ Contains q kw_privacy_deva ->
  matchesPrivacy tbl q = true.
Proof.
  intros Hdev [H|H]; unfold matchesPrivacy.
  - rewrite (includes_lower_anycase tbl q kw_privacy); auto.
  - rewrite (includes_lower_devanagari tbl q kw_privacy_deva); auto.
    apply orb_true_r.
Qed.

(** The resolver: a topic chosen from the query alone, read from the
    bundle chosen from the language code alone. *)
Lemma getMockResponse_rules tbl query lang :
  getMockResponse tbl query lang
  = readTopic (langResponsesOf lang)
      (if matchesPassword tbl query then password
       else if matchesPrivacy tbl query then privacy
       else default).
Proof.
  unfold getMockResponse, matchesPassword, matchesPrivacy, langResponsesOf.
  destruct (_ || _)%bool; [reflexivity|].
  destruct (_ || _)%bool; reflexivity.
Qed.

Lemma langResponsesOf_supported lang bundle :
  In (lang, bundle) responses -> langResponsesOf lang = VBundle bundle.
Proof.
  intros [H|[H|[H|[]]]]; injection H as <- <-; vm_compute; reflexivity.
Qed.

(** A code that names neither a bundle nor a property of
    [Object.prototype] falls back to [en-US]. *)
Lemma langResponsesOf_fallback lang :
  ownProperty responses lang = None ->
  existsb (jsstring_eqb lang) objectPrototypeKeys = false ->
  langResponsesOf lang = langResponsesOf (utf16 "en-US").
Proof.
  intros Hown Hproto. unfold langResponsesOf at 1, getProperty at 1.
  rewrite Hown, Hproto. reflexivity.
Qed.

(** A code that names a property of [Object.prototype] selects that
    property. *)
Lemma langResponsesOf_inherited lang :
  In lang objectPrototypeKeys -> langResponsesOf lang = VBuiltin lang.
Proof.
  intros H. unfold objectPrototypeKeys in H. simpl in H.
  repeat (destruct H as [<-|H]; [vm_compute; reflexivity|]).
  destruct H.
Qed.

Lemma langResponsesOf_defined lang : langResponsesOf lang <> VUndefined.
Proof.
  unfold langResponsesOf, orElse.
  destruct (getProperty responses lang) eqn:E; simpl; try discriminate.
  destruct (jsstring_eqb s []); discriminate.
Qed.

(** The resolver never throws. *)
Lemma getMockResponse_returns tbl query lang :
  exists v, getMockResponse tbl query lang = Normal v.
Proof.
  rewrite getMockResponse_rules.
  assert (H := langResponsesOf_defined lang).
  destruct (langResponsesOf lang); simpl; eauto. congruence.
Qed.

Lemma excerptCaseTable_devanagari : DevanagariUncased excerptCaseTable.
Proof.
  intros before c after Hc. unfold excerptCaseTable.
  repeat match goal with
  | |- context [N.leb ?a ?b] => destruct (N.leb_spec a b); try lia
  | |- context [N.eqb ?a ?b] => destruct (N.eqb_spec a b); try lia
  end; reflexivity.
Qed.

(** C5. For a supported language code, a query that contains "password"
    in any casing of its letters, or the Devanagari keyword, gets that
    language's password advice, whatever else the query contains (the
    privacy keyword too: the password rule is tried first). *)
Theorem C5_password_first tbl query lang bundle :
  DevanagariUncased tbl ->
  In (lang, bundle) responses ->
  ContainsAnyCase query kw_password \/ Contains query kw_password_deva ->
  getMockResponse tbl query lang = Normal (VString (password bundle)).
Proof.
  intros Hdev Hlang Hkw.
  rewrite getMockResponse_rules, (matchesPassword_keyword tbl query Hdev Hkw).
  rewrite (langResponsesOf_supported lang bundle Hlang). reflexivity.
Qed.

Lemma C5_password_first_witness :
  getMockResponse excerptCaseTable
    (utf16 "Privacy aside, is my PassWord safe?") (utf16 "hi-IN")
  = Normal (VString (password hiIN)).
Proof.
  apply (C5_password_first excerptCaseTable
           (utf16 "Privacy aside, is my PassWord safe?") (utf16 "hi-IN") hiIN).
  - exact excerptCaseTable_devanagari.
  - right. left. reflexivity.
  - left. exists (utf16 "Privacy aside, is my "), (utf16 "PassWord"),
      (utf16 " safe?"). split; reflexivity.
Defined.

(** C6 fails on the code.  The code [constructor] names no bundle, yet
    [responses["constructor"]] is the function inherited from
    [Object.prototype], which is truthy: the [en-US] fallback is not
    taken and the result is [undefined], not the English reply. *)
Theorem C6_inherited_code_not_english tbl :
  getMockResponse tbl (utf16 "hello") (utf16 "constructor") = Normal VUndefined
  /\ getMockResponse tbl (utf16 "hello") (utf16 "en-US")
     = Normal (VString (default enUS)).
Proof. split; vm_compute; reflexivity. Qed.

(** What does hold of C6: a code that names neither a bundle nor a
    property of [Object.prototype] behaves as [en-US]. *)
Lemma getMockResponse_fallback tbl query lang :
  ownProperty responses lang = None ->
  existsb (jsstring_eqb lang) objectPrototypeKeys = false ->
  getMockResponse tbl query lang = getMockResponse tbl query (utf16 "en-US").
Proof.
  intros Hown Hproto. rewrite !getMockResponse_rules.
  rewrite (langResponsesOf_fallback lang Hown Hproto). reflexivity.
Qed.

(** C7 fails on the code at the same place: for the code [toString] the
    resolver returns [undefined], which is no string.  (It never throws,
    and without a keyword it returns the [default] of what it selected:
    [getMockResponse_returns], [getMockResponse_rules].) *)
Theorem C7_result_not_a_string tbl :
  getMockResponse tbl (utf16 "what is phishing") (utf16 "toString")
  = Normal VUndefined.
Proof. vm_compute. reflexivity. Qed.

(** What does hold of C7: for every other code the result is a string,
    the [default] one when no keyword matches. *)
Lemma getMockResponse_string tbl query lang :
  existsb (jsstring_eqb lang) objectPrototypeKeys = false ->
  exists bundle,
    langResponsesOf lang = VBundle bundle /\
    getMockResponse tbl query lang
    = Normal (VString ((if matchesPassword tbl query then password
                        else if matchesPrivacy tbl query then privacy
                        else default) bundle)).
Proof.
  intros Hproto. rewrite getMockResponse_rules.
  unfold langResponsesOf, getProperty. rewrite Hproto.
  destruct (ownProperty responses lang) as [b|].
  - exists b. split; reflexivity.
  - exists enUS. split; reflexivity.
Qed.

(** ** The keyword rules, read on the query itself *)















(** ** The component: what the handlers do to the state *)

Lemma speak_state v l st :
  messages (after (speak v l st)) = messages st
  /\ timers (after (speak v l st)) = timers st
  /\ input (after (speak v l st)) = input st.
Proof.
  destruct st as [ms inp sl tms [q|]]; repeat split.
Qed.

(** An accepted submission stores the sanitized text, empties the input
    and schedules the reply with the sanitized text. *)
Lemma handleSend_accepted now st :
  jsstring_eqb (trim (input st)) [] = false ->
  messages (after (handleSend now st))
  = messages st
    ++ [ {| id := numberToString now; role := user;
            text := VString (sanitizeInput (input st)); lang := None |} ]
  /\ input (after (handleSend now st)) = []
  /\ timers (after (handleSend now st))
     = timers st
       ++ [ {| due := now + 1000; cleanText := sanitizeInput (input st);
               timerLang := code (selectedLang st) |} ].
Proof.
  intros H. unfold handleSend. rewrite H. repeat split.
Qed.

Lemma handleSend_rejected now st :
  jsstring_eqb (trim (input st)) [] = true ->
  handleSend now st = (Normal tt, st).
Proof. intros H. unfold handleSend. rewrite H. reflexivity. Qed.

Lemma botCallback_state tbl now t st :
  timers (after (botCallback tbl now t st)) = timers st
  /\ (messages (after (botCallback tbl now t st)) = messages st
      \/ exists v,
         messages (after (botCallback tbl now t st))
         = messages st
           ++ [ {| id := numberToString (now + 1); role := bot;
                   text := v; lang := Some (timerLang t) |} ]).
Proof.
  unfold botCallback.
  destruct (getMockResponse tbl (cleanText t) (timerLang t)) as [v|e].
  - unfold bind, setMessages. cbn [text].
    match goal with
    | |- context [speak v ?l ?s] =>
      destruct (speak_state v l s) as (Hm & Ht & _)
    end.
    unfold after in *. unfold bind in *.
    destruct (speak v (timerLang t) _) as [[u|e] st'] eqn:E;
      simpl in *; split; eauto.
  - simpl. auto.
Qed.

Lemma clearHistory_state st :
  messages (after (clearHistory st)) = []
  /\ timers (after (clearHistory st)) = timers st.
Proof.
  destruct st as [ms inp sl tms [q|]]; split; reflexivity.
Qed.

Lemma Sanitized_step tbl w e w' :
  step tbl w e = Some w' -> Sanitized (state w) -> Sanitized (state w').
Proof.
  destruct w as [st clk]. unfold Sanitized. intros Hstep [Hm Ht].
  cbn [state] in Hm, Ht.
  destruct e as [s|i|now|now| |i]; simpl in Hstep.
  - injection Hstep as <-. split; assumption.
  - destruct (nth_error LANGUAGES i); [|discriminate].
    injection Hstep as <-. split; assumption.
  - destruct (clk <=? now)%N; [|discriminate]. injection Hstep as <-.
    cbn [state].
    destruct (jsstring_eqb (trim (input st)) []) eqn:E.
    + rewrite handleSend_rejected by exact E. split; assumption.
    + destruct (handleSend_accepted now st E) as (-> & _ & ->).
      split.
      * intros m Hin Hr.
        apply in_app_or in Hin as [Hin|[<-|[]]]; [eauto | simpl; eauto].
      * intros t Hin.
        apply in_app_or in Hin as [Hin|[<-|[]]]; [eauto | simpl; eauto].
  - destruct (timers st) as [|t rest] eqn:Et; [discriminate|].
    destruct (_ && _)%bool; [|discriminate]. injection Hstep as <-.
    cbn [state].
    match goal with
    | |- context [after (botCallback tbl now t ?s)] =>
      destruct (botCallback_state tbl now t s) as (Htm & Hms)
    end.
    split.
    + intros m Hin Hr. destruct Hms as [Hms|[v Hms]]; rewrite Hms in Hin.
      * apply Hm; assumption.
      * apply in_app_or in Hin as [Hin|[<-|[]]]; [auto | discriminate].
    + rewrite Htm. intros t' Hin. apply Ht. right. exact Hin.
  - injection Hstep as <-. cbn [state].
    destruct (clearHistory_state st) as (Hm' & Ht').
    split.
    + rewrite Hm'. intros m [].
    + rewrite Ht'. exact Ht.
  - destruct (nth_error (messages st) i) as [m|]; [|discriminate].
    destruct (role m); [discriminate|]. injection Hstep as <-. cbn [state].
    match goal with
    | |- context [after (speak ?v ?l st)] =>
      destruct (speak_state v l st) as (Hm' & Ht' & _)
    end.
    split; [rewrite Hm' | rewrite Ht']; assumption.
Qed.

Lemma Sanitized_run tbl es : forall w w',
  run tbl w es = Some w' -> Sanitized (state w) -> Sanitized (state w').
Proof.
  induction es as [|e es IH]; intros w w' H Hs; simpl in H.
  - injection H as <-. exact Hs.
  - destruct (step tbl w e) as [w1|] eqn:E; [|discriminate].
    eapply IH; eauto. eapply Sanitized_step; eauto.
Qed.

Lemma Sanitized_reachable tbl w : Reachable tbl w -> Sanitized (state w).
Proof.
  intros (synthesis & t0 & es & H).
  eapply Sanitized_run; eauto.
  split; intros x [].
Qed.

(** C1. A submission that is accepted stores [sanitizeInput] of the raw
    input as the user message, empties the input and keeps only the
    sanitized text for the reply.  In every reachable state each user
    message holds a text that came out of [sanitizeInput], in which
    [sanitizeInput] finds nothing more to redact, and so does each
    pending reply. *)
Theorem C1_user_text_sanitized tbl w now :
  Reachable tbl w ->
  (jsstring_eqb (trim (input (state w))) [] = false ->
   messages (after (handleSend now (state w)))
   = messages (state w)
     ++ [ {| id := numberToString now; role := user;
             text := VString (sanitizeInput (input (state w)));
             lang := None |} ]
   /\ input (after (handleSend now (state w))) = []
   /\ timers (after (handleSend now (state w)))
      = timers (state w)
        ++ [ {| due := now + 1000;
                cleanText := sanitizeInput (input (state w));
                timerLang := code (selectedLang (state w)) |} ])
  /\ (forall m, In m (messages (state w)) -> role m = user ->
      exists raw, text m = VString (sanitizeInput raw)
                  /\ sanitizeInput (sanitizeInput raw) = sanitizeInput raw)
  /\ (forall t, In t (timers (state w)) ->
      exists raw, cleanText t = sanitizeInput raw).
Proof.
  intros Hreach. split; [apply handleSend_accepted|].
  destruct (Sanitized_reachable tbl w Hreach) as [Hm Ht].
  split; [|exact Ht].
  intros m Hin Hr. destruct (Hm m Hin Hr) as [raw Hraw].
  exists raw. split; [exact Hraw | apply sanitizeInput_fixed].
Qed.

Lemma C1_user_text_sanitized_witness :
  (jsstring_eqb (trim (input (state sampleWorld))) [] = false ->
   messages (after (handleSend 7 (state sampleWorld)))
   = messages (state sampleWorld)
     ++ [ {| id := numberToString 7; role := user;
             text := VString (sanitizeInput (input (state sampleWorld)));
             lang := None |} ]
   /\ input (after (handleSend 7 (state sampleWorld))) = []
   /\ timers (after (handleSend 7 (state sampleWorld)))
      = timers (state sampleWorld)
        ++ [ {| due := 7 + 1000;
                cleanText := sanitizeInput (input (state sampleWorld));
                timerLang := code (selectedLang (state sampleWorld)) |} ])
  /\ (forall m, In m (messages (state sampleWorld)) -> role m = user ->
      exists raw, text m = VString (sanitizeInput raw)
                  /\ sanitizeInput (sanitizeInput raw) = sanitizeInput raw)
  /\ (forall t, In t (timers (state sampleWorld)) ->
      exists raw, cleanText t = sanitizeInput raw).
Proof.
  apply (C1_user_text_sanitized excerptCaseTable sampleWorld 7).
  exists true, 0%N, sampleEvents. vm_compute. reflexivity.
Defined.

(** C8 fails on the code.  [clearHistory] calls
    [window.speechSynthesis.cancel()] without the test [speak] makes
    first: in a browser without speech synthesis it throws a TypeError
    (after emptying the message list), where [speak] does nothing. *)
Theorem C8_clearHistory_throws msgs inp l tms v lg :
  clearHistory (mkState msgs inp l tms None)
  = (Throw TypeError, mkState [] inp l tms None)
  /\ speak v lg (mkState msgs inp l tms None)
     = (Normal tt, mkState msgs inp l tms None).
Proof. split; reflexivity. Qed.

(** What does hold of C8: with speech synthesis, clearing empties the
    message list and the queue, and a later [speak] is queued. *)
Lemma clearHistory_with_synthesis msgs inp l tms q v lg :
  clearHistory (mkState msgs inp l tms (Some q))
  = (Normal tt, mkState [] inp l tms (Some []))
  /\ speak v lg (mkState [] inp l tms (Some []))
     = (Normal tt,
        mkState [] inp l tms
          (Some [ {| utteranceText := v; utteranceLang := lg |} ])).
Proof. split; reflexivity. Qed.

(** C9 fails on the code.  Ids are clock readings: the reply to a
    message sent at time 1700000000000 runs one second later, at
    1700000001000, and takes the id ["1700000001001"]; so does a message
    the user sends at time 1700000001001. *)
Theorem C9_duplicate_ids tbl :
  exists w,
    run tbl (initialWorld true 1700000000000)
      [ EInput (utf16 "a"); ESend 1700000000000; ETimer 1700000001000;
        EInput (utf16 "b"); ESend 1700000001001 ] = Some w
    /\ map role (messages (state w)) = [user; bot; user]
    /\ map id (messages (state w))
       = [utf16 "1700000000000"; utf16 "1700000001001"; utf16 "1700000001001"]
    /\ ~ NoDup (map id (messages (state w))).
Proof.
  eexists. split; [vm_compute; reflexivity|].
  split; [reflexivity|]. split; [reflexivity|].
  cbn [state messages map id]. intros H.
  inversion H as [|x xs _ H1]. subst.
  inversion H1 as [|x xs H2 _]. subst.
  apply H2. left. reflexivity.
Qed.


(** * Further properties of the code *)

(** ** The Redactor: what is left after [sanitizeInput] *)

Lemma RP_fixed_NoPhone s : forall prev,
  RP prev s = s ->
  forall a b, s = a ++ b -> phoneAt (prevAfter prev a) b = false.
Proof.
  induction s as [|c s IH]; intros prev H a b Hs.
  - apply phoneAt_nondigit.
    destruct a; [|discriminate]. destruct b; [|discriminate]. reflexivity.
  - destruct (phoneAt prev (c :: s)) eqn:E.
    + exfalso. rewrite (RP_hit prev (c :: s) E) in H.
      change PHONE_REDACTED with (91%N :: tl PHONE_REDACTED) in H.
      simpl app in H. injection H as Hc _. subst c.
      unfold phoneAt in E. apply andb_true_iff in E as [_ E].
      cbn [takeClass] in E.
      destruct (classMatches digitClass 91) eqn:D; [|discriminate].
      vm_compute in D. discriminate.
    + rewrite (RP_skip prev c s E) in H. injection H as H.
      destruct a as [|c' a].
      * simpl in Hs. subst b. exact E.
      * simpl in Hs. injection Hs as <- Hs. simpl. apply (IH _ H _ _ Hs).
Qed.

Lemma NoPhone_RP_fixed s : forall prev,
  (forall a b, s = a ++ b -> phoneAt (prevAfter prev a) b = false) ->
  RP prev s = s.
Proof.
  induction s as [|c s IH]; intros prev H; [apply RP_nil|].
  rewrite RP_skip; [|apply (H [] (c :: s)); reflexivity].
  f_equal. apply IH. intros a b ->. apply (H (c :: a) b). reflexivity.
Qed.

(** X1. Whatever the input, no position of the output of
    [sanitizeInput] starts an email address (a local part, [@], a
    domain, a dot and two letters or more). *)
Theorem X1_no_email_left (x : jsstring) : NoEmail (sanitizeInput x).
Proof.
  unfold sanitizeInput. apply NoEmail_redactPhones, NoEmail_redactEmails.
Qed.

(** X2. Whatever the input, no position of the output of
    [sanitizeInput] starts ten digits standing between two word
    boundaries. *)
Theorem X2_no_phone_left (x : jsstring) : NoPhone (sanitizeInput x).
Proof.
  unfold NoPhone, sanitizeInput. intros a b H.
  refine (RP_fixed_NoPhone _ None _ a b H).
  apply redactPhones_idempotent.
Qed.

(** X3. [sanitizeInput] returns its input unchanged exactly when the
    input has nothing to redact: no position starts an email address and
    no position starts ten digits between word boundaries. The empty
    text is such an input. *)
Theorem X3_unchanged_iff_nothing_to_redact (x : jsstring) :
  sanitizeInput x = x <-> NoEmail x /\ NoPhone x.
Proof.
  split.
  - intros H. split.
    + rewrite <- H. unfold sanitizeInput.
      apply NoEmail_redactPhones, NoEmail_redactEmails.
    + rewrite <- H. unfold NoPhone, sanitizeInput. intros a b Hs.
      refine (RP_fixed_NoPhone _ None _ a b Hs).
      apply redactPhones_idempotent.
  - intros [He Hp]. unfold sanitizeInput.
    rewrite (redactEmails_fixed x He).
    apply (NoPhone_RP_fixed x None). exact Hp.
Qed.

(** ** The two patterns, read as languages *)

(** X4. The email pattern of [sanitizeInput] matches at a position
    exactly when the text there starts with a local part, [@], a
    domain, a dot and at least two letters; what a match consumes has
    that shape; and the match does not depend on the character before
    the position. *)
Theorem X4_email_pattern_language (prev : option codeUnit) (s : jsstring) :
  (matchAt emailRegex (prev, s) <> None <-> EmailPrefix s)
  /\ (forall prev' s',
        matchAt emailRegex (prev, s) = Some (prev', s') ->
        exists l dm t,
          s = l ++ 64%N :: dm ++ 46%N :: t ++ s' /\
          l <> [] /\ forallb (classMatches emailLocalClass) l = true /\
          dm <> [] /\ forallb (classMatches emailDomainClass) dm = true /\
          2 <= length t /\ forallb (classMatches letterClass) t = true)
  /\ (forall other,
        option_map snd (matchAt emailRegex (other, s))
        = option_map snd (matchAt emailRegex (prev, s))).
Proof.
  split; [split|split].
  - intros H. destruct (matchAt emailRegex (prev, s)) as [[p' s']|] eqn:E;
      [|congruence].
    apply email_sound in E as (l & dm & t & E & R).
    exists l, dm, t, s'. split; [exact E|exact R].
  - apply email_complete.
  - intros prev' s'. apply email_sound.
  - intros other. apply matchAt_email_prev.
Qed.

Lemma takeClass_app cls d : forall r,
  forallb (classMatches cls) d = true ->
  takeClass cls (length d) (d ++ r) = Some r.
Proof.
  induction d as [|c d IH]; intros r H; [reflexivity|].
  simpl in H. apply andb_true_iff in H as [Hc Hd].
  cbn [length app takeClass]. rewrite Hc. apply IH, Hd.
Qed.

(** X5. The phone pattern of [sanitizeInput] matches at a position
    exactly when no word character stands before it, ten digits follow,
    and no word character comes after them; the match consumes these ten
    digits and nothing else. *)
Theorem X5_phone_pattern_language (prev p' : option codeUnit)
    (s s' : jsstring) :
  matchAt phoneRegex (prev, s) = Some (p', s')
  <-> isWordChar prev = false
      /\ exists d, s = d ++ s' /\ length d = 10
           /\ forallb (classMatches digitClass) d = true
           /\ isWordChar (hd_error s') = false
           /\ p' = prevAfter prev d.
Proof.
  rewrite matchAt_phone. unfold phoneAt. split.
  - intros H. destruct (isWordChar prev) eqn:W; [discriminate|].
    split; [reflexivity|]. cbn [negb andb] in H.
    destruct (takeClass digitClass 10 s) as [r|] eqn:T; [|discriminate].
    destruct (isWordChar (hd_error r)) eqn:A; [discriminate|].
    cbn [negb] in H. injection H as Hp Hs.
    change (skipn 10 s = s') in Hs.
    apply takeClass_Some in T as (E & L & D & R).
    rewrite <- R in Hs. subst r. subst s' p'.
    exists (firstn 10 s).
    split; [exact E|]. split; [exact L|]. split; [exact D|].
    split; [exact A|]. reflexivity.
  - intros (W & d & -> & L & D & A & ->). rewrite W. cbn [negb andb].
    rewrite <- L at 1. rewrite (takeClass_app digitClass d s' D), A.
    cbn [negb]. rewrite <- L.
    rewrite firstn_app, Nat.sub_diag, firstn_all.
    rewrite skipn_app, Nat.sub_diag, skipn_all.
    change (firstn 0 s') with (@nil N). change (skipn 0 s') with s'.
    rewrite app_nil_r. reflexivity.
Qed.

(** ** Redaction on either side of a separator *)

Lemma repeatMatcher_sep cls c0 b k k' :
  classMatches cls c0 = false ->
  (forall st,
     k (extendRest (c0 :: b) st) = option_map (extendRest (c0 :: b)) (k' st)) ->
  forall a min max prev,
    repeatMatcher cls min max k prev (a ++ c0 :: b)
    = option_map (extendRest (c0 :: b)) (repeatMatcher cls min max k' prev a).
Proof.
  intros Hc Hk. induction a as [|c a IH]; intros min max prev.
  - cbn [app].
    destruct max as [[|m]|]; cbn [repeatMatcher]; rewrite ?Hc;
      try (destruct min; [apply (Hk (prev, [])) | reflexivity]);
      apply (Hk (prev, [])).
  - cbn [app].
    destruct max as [[|m]|]; cbn [repeatMatcher];
      try apply (Hk (prev, c :: a));
      (destruct (classMatches cls c);
       [ rewrite IH;
         destruct (repeatMatcher cls _ _ k' (Some c) a); cbn [option_map];
         [reflexivity|]
       | ];
       (destruct min; [apply (Hk (prev, c :: a)) | reflexivity])).
Qed.

Lemma separator_classes c0 :
  isSeparator c0 = true ->
  classMatches emailLocalClass c0 = false
  /\ classMatches [CharOne "@"] c0 = false
  /\ classMatches emailDomainClass c0 = false
  /\ classMatches [CharOne "."] c0 = false
  /\ classMatches letterClass c0 = false
  /\ classMatches wordClass c0 = false
  /\ classMatches digitClass c0 = false.
Proof.
  unfold isSeparator. intros H. apply andb_true_iff in H as [Hl Ha].
  apply negb_true_iff in Hl, Ha. apply N.eqb_neq in Ha.
  repeat split; class_lia.
Qed.

Lemma matchAt_email_sep prev a c0 b :
  isSeparator c0 = true ->
  matchAt emailRegex (prev, a ++ c0 :: b)
  = option_map (extendRest (c0 :: b)) (matchAt emailRegex (prev, a)).
Proof.
  intros H. apply separator_classes in H as (Hl & Ha & Hd & Hp & Ht & _).
  unfold matchAt, emailRegex. cbn [matchPattern fst snd].
  apply repeatMatcher_sep; [exact Hl|]. intros st. cbn [extendRest fst snd].
  apply repeatMatcher_sep; [exact Ha|]. intros st1. cbn [extendRest fst snd].
  apply repeatMatcher_sep; [exact Hd|]. intros st2. cbn [extendRest fst snd].
  apply repeatMatcher_sep; [exact Hp|]. intros st3. cbn [extendRest fst snd].
  apply repeatMatcher_sep; [exact Ht|]. intros st4. reflexivity.
Qed.

Lemma RE_sep c0 b :
  isSeparator c0 = true ->
  forall a prev, RE prev (a ++ c0 :: b) = RE prev a ++ c0 :: RE None b.
Proof.
  intros Hsep a. remember (length a) as n eqn:Hn. revert a Hn.
  induction n as [n IH] using lt_wf_ind. intros a Hn prev.
  assert (E' := matchAt_email_sep prev a c0 b Hsep).
  destruct (matchAt emailRegex (prev, a)) as [[p r]|] eqn:E;
    cbn [option_map extendRest fst snd] in E'.
  - assert (Hlt := email_hit_shorter _ _ _ E). cbn [snd] in Hlt.
    rewrite (replaceFrom_hit emailRegex EMAIL_REDACTED prev (a ++ c0 :: b)
               p (r ++ c0 :: b) E');
      [|rewrite !length_app; lia].
    rewrite (replaceFrom_hit emailRegex EMAIL_REDACTED prev a p r E Hlt).
    rewrite (IH (length r)); [|lia|reflexivity].
    rewrite app_assoc. reflexivity.
  - destruct a as [|c a].
    + cbn [app] in *.
      rewrite (replaceFrom_skip emailRegex EMAIL_REDACTED prev c0 b E').
      rewrite (replaceFrom_nil emailRegex EMAIL_REDACTED prev E).
      cbn [app]. f_equal. apply RE_prev.
    + cbn [app] in *.
      rewrite (replaceFrom_skip emailRegex EMAIL_REDACTED prev c (a ++ c0 :: b) E').
      rewrite (replaceFrom_skip emailRegex EMAIL_REDACTED prev c a E).
      cbn [app]. f_equal. apply (IH (length a)); [simpl in Hn; lia|reflexivity].
Qed.

(** X6. A character that cannot be part of an email address (a space,
    a comma, a line break, any code unit outside letters, digits and
    [. _ % + - @]) separates the work of [sanitizeInput]: the text
    before it and the text after it are redacted independently of each
    other. *)
Theorem X6_separator_splits_redaction (a b : jsstring) (c0 : codeUnit) :
  isSeparator c0 = true ->
  sanitizeInput (a ++ c0 :: b) = sanitizeInput a ++ c0 :: sanitizeInput b.
Proof.
  intros H. assert (C := separator_classes c0 H).
  destruct C as (_ & _ & _ & _ & _ & Hw & Hd).
  unfold sanitizeInput, redactEmails, redactPhones, replace.
  rewrite (RE_sep c0 b H a None).
  rewrite RP_app_boundary; [|exact Hw].
  f_equal.
  rewrite RP_skip; [|apply phoneAt_nondigit; exact Hd].
  f_equal. apply RP_prev. left. cbn [isWordChar]. exact Hw.
Qed.

Lemma X6_separator_splits_redaction_witness :
  sanitizeInput (utf16 "a@b.com" ++ 32%N :: utf16 "9876543210")
  = sanitizeInput (utf16 "a@b.com") ++ 32%N :: sanitizeInput (utf16 "9876543210").
Proof.
  apply (X6_separator_splits_redaction (utf16 "a@b.com") (utf16 "9876543210") 32).
  reflexivity.
Defined.


(** ** The resolver: what it returns *)

(** X7. [getMockResponse] never throws, whatever the query and the
    language code: it returns a string or [undefined]. *)
Theorem X7_resolver_never_throws (tbl : CaseTable) (query lang : jsstring) :
  exists v, getMockResponse tbl query lang = Normal v
            /\ (v = VUndefined \/ exists s, v = VString s).
Proof.
  rewrite getMockResponse_rules.
  assert (H := langResponsesOf_defined lang).
  destruct (langResponsesOf lang); cbn [readTopic]; eauto.
  congruence.
Qed.

(** X8. A language code that names no bundle and no property of
    [Object.prototype] gets what [en-US] gets, for every query: the
    empty code, an unknown code such as [fr-FR], a code in another
    casing such as [EN-US]. *)
Theorem X8_unknown_code_is_english (tbl : CaseTable) (query lang : jsstring) :
  ownProperty responses lang = None ->
  existsb (jsstring_eqb lang) objectPrototypeKeys = false ->
  getMockResponse tbl query lang = getMockResponse tbl query (utf16 "en-US").
Proof.
  intros Hown Hproto. rewrite !getMockResponse_rules.
  rewrite (langResponsesOf_fallback lang Hown Hproto). reflexivity.
Qed.

Lemma X8_unknown_code_is_english_witness :
  getMockResponse excerptCaseTable (utf16 "my password") (utf16 "EN-US")
  = getMockResponse excerptCaseTable (utf16 "my password") (utf16 "en-US").
Proof.
  apply (X8_unknown_code_is_english excerptCaseTable (utf16 "my password")
           (utf16 "EN-US")); reflexivity.
Defined.

(** X9. For a supported language code, a query that contains "privacy"
    in any casing of its letters, or the Devanagari keyword, gets that
    language's privacy advice, provided the password rule, which is
    tried first, does not apply. *)
Theorem X9_privacy_second (tbl : CaseTable) (query lang : jsstring)
    (bundle : Bundle) :
  DevanagariUncased tbl ->
  In (lang, bundle) responses ->
  matchesPassword tbl query = false ->
  ContainsAnyCase query kw_privacy \/ Contains query kw_privacy_deva ->
  getMockResponse tbl query lang = Normal (VString (privacy bundle)).
Proof.
  intros Hdev Hlang Hpw Hkw.
  rewrite getMockResponse_rules, Hpw, (matchesPrivacy_keyword tbl query Hdev Hkw).
  rewrite (langResponsesOf_supported lang bundle Hlang). reflexivity.
Qed.

Lemma X9_privacy_second_witness :
  getMockResponse excerptCaseTable (utf16 "Is my PRIVACY at risk?")
    (utf16 "mr-IN")
  = Normal (VString (privacy mrIN)).
Proof.
  apply (X9_privacy_second excerptCaseTable (utf16 "Is my PRIVACY at risk?")
           (utf16 "mr-IN") mrIN).
  - exact excerptCaseTable_devanagari.
  - right. right. left. reflexivity.
  - vm_compute. reflexivity.
  - left. exists (utf16 "Is my "), (utf16 "PRIVACY"), (utf16 " at risk?").
    split; reflexivity.
Defined.

(** ** [handleSend]: which inputs it ignores *)

Lemma trimStart_nil s : trimStart s = [] <-> forallb isWhiteSpace s = true.
Proof.
  induction s as [|c s IH]; [simpl; tauto|].
  cbn [trimStart forallb]. destruct (isWhiteSpace c); cbn [andb].
  - exact IH.
  - split; discriminate.
Qed.

Lemma trimStart_hd s : forall c r,
  trimStart s = c :: r -> isWhiteSpace c = false.
Proof.
  induction s as [|c0 s IH]; intros c r H; [discriminate|].
  cbn [trimStart] in H. destruct (isWhiteSpace c0) eqn:E.
  - apply (IH _ _ H).
  - injection H as <- _. exact E.
Qed.

Lemma forallb_rev {A} (f : A -> bool) l :
  forallb f (rev l) = true -> forallb f l = true.
Proof.
  rewrite !forallb_forall. intros H x Hx. apply H, in_rev.
  rewrite rev_involutive. exact Hx.
Qed.

Lemma trim_nil s : trim s = [] <-> forallb isWhiteSpace s = true.
Proof.
  unfold trim. split.
  - intros H. apply (f_equal (@rev N)) in H. rewrite rev_involutive in H.
    cbn [rev] in H. apply trimStart_nil, forallb_rev in H.
    destruct (trimStart s) as [|c r] eqn:E.
    + apply trimStart_nil, E.
    + apply trimStart_hd in E. cbn [forallb] in H. rewrite E in H.
      discriminate.
  - intros H. apply trimStart_nil in H. rewrite H. reflexivity.
Qed.

Lemma jsstring_eqb_eq a b : jsstring_eqb a b = true <-> a = b.
Proof.
  unfold jsstring_eqb. destruct (list_eq_dec N.eq_dec a b); split;
    congruence.
Qed.

(** X10. [handleSend] does nothing at all (no message, no timer, the
    input kept as it is) exactly when the input is empty or made of
    white space and line terminators only; every other input is
    accepted. *)
Theorem X10_blank_input_ignored (now : N) (st : State) :
  handleSend now st = (Normal tt, st)
  <-> forallb isWhiteSpace (input st) = true.
Proof.
  rewrite <- trim_nil, <- jsstring_eqb_eq. split.
  - intros H. destruct (jsstring_eqb (trim (input st)) []) eqn:E;
      [reflexivity|].
    destruct (handleSend_accepted now st E) as (Hm & _).
    rewrite H in Hm. cbn [after snd] in Hm.
    apply (f_equal (@length Message)) in Hm. rewrite length_app in Hm.
    simpl in Hm. lia.
  - apply handleSend_rejected.
Qed.

(** ** Message ids *)

Lemma utf16_of_bytes_ascii bs :
  Forall (fun b => (b < 128)%N) bs -> utf16_of_bytes bs = bs.
Proof.
  induction 1 as [|b bs Hb _ IH]; [reflexivity|].
  cbn [utf16_of_bytes]. apply N.ltb_lt in Hb. rewrite Hb, IH. reflexivity.
Qed.

Lemma string_of_uint_ascii d :
  Forall (fun b => (b < 128)%N)
    (map N_of_ascii (list_ascii_of_string (NilEmpty.string_of_uint d))).
Proof.
  induction d; cbn [NilEmpty.string_of_uint list_ascii_of_string map];
    constructor; try assumption; vm_compute; reflexivity.
Qed.

Lemma numberToString_digits n :
  numberToString n
  = map N_of_ascii (list_ascii_of_string (NilEmpty.string_of_uint (N.to_uint n))).
Proof.
  unfold numberToString, utf16. apply utf16_of_bytes_ascii, string_of_uint_ascii.
Qed.

Lemma numberToString_inj a b :
  numberToString a = numberToString b -> a = b.
Proof.
  rewrite !numberToString_digits. intros H.
  apply (f_equal (map ascii_of_N)) in H.
  rewrite !map_map in H.
  rewrite !(map_ext _ (fun x => x) ascii_N_embedding), !map_id in H.
  apply (f_equal string_of_list_ascii) in H.
  rewrite !string_of_list_ascii_of_string in H.
  apply (f_equal NilEmpty.uint_of_string) in H.
  rewrite !NilEmpty.usu in H. injection H as H.
  apply (f_equal N.of_uint) in H.
  rewrite !DecimalN.Unsigned.of_to in H. exact H.
Qed.

Lemma numberToString_eqb a b :
  jsstring_eqb (numberToString a) (numberToString b) = (a =? b)%N.
Proof.
  destruct (N.eqb_spec a b) as [->|Hne].
  - apply jsstring_eqb_eq. reflexivity.
  - destruct (jsstring_eqb (numberToString a) (numberToString b)) eqn:E;
      [|reflexivity].
    apply jsstring_eqb_eq, numberToString_inj in E. contradiction.
Qed.

Lemma handleSend_new_message now st m :
  nth_error (messages (after (handleSend now st))) (length (messages st))
  = Some m ->
  m = {| id := numberToString now; role := user;
         text := VString (sanitizeInput (input st)); lang := None |}.
Proof.
  intros H. destruct (jsstring_eqb (trim (input st)) []) eqn:E.
  - rewrite (handleSend_rejected now st E) in H. cbn [after snd] in H.
    assert (L : nth_error (messages st) (length (messages st)) = None)
      by (apply nth_error_None; lia).
    congruence.
  - destruct (handleSend_accepted now st E) as (Hm & _).
    rewrite Hm, nth_error_app2, Nat.sub_diag in H by lia.
    injection H as <-. reflexivity.
Qed.

(** ** The component: replies and the synthesis queue *)

Lemma speak_frame v l st :
  messages (after (speak v l st)) = messages st
  /\ timers (after (speak v l st)) = timers st
  /\ input (after (speak v l st)) = input st
  /\ selectedLang (after (speak v l st)) = selectedLang st
  /\ OneUtterance (after (speak v l st))
  /\ fst (speak v l st) = Normal tt.
Proof.
  destruct st as [ms inp sl tms [q|]]; unfold OneUtterance; cbn;
    repeat split; auto.
Qed.

Lemma botCallback_frame tbl now t st :
  exists reply,
    getMockResponse tbl (cleanText t) (timerLang t) = Normal reply
    /\ messages (after (botCallback tbl now t st))
       = messages st
         ++ [ {| id := numberToString (now + 1); role := bot;
                 text := reply; lang := Some (timerLang t) |} ]
    /\ timers (after (botCallback tbl now t st)) = timers st
    /\ input (after (botCallback tbl now t st)) = input st
    /\ selectedLang (after (botCallback tbl now t st)) = selectedLang st
    /\ OneUtterance (after (botCallback tbl now t st)).
Proof.
  destruct (getMockResponse_returns tbl (cleanText t) (timerLang t))
    as [reply Hr].
  exists reply. split; [exact Hr|].
  unfold botCallback. rewrite Hr.
  destruct st as [ms inp sl tms [q|]]; unfold OneUtterance; cbn;
    repeat split; auto.
Qed.

Lemma clearHistory_frame st :
  messages (after (clearHistory st)) = []
  /\ timers (after (clearHistory st)) = timers st
  /\ input (after (clearHistory st)) = input st
  /\ selectedLang (after (clearHistory st)) = selectedLang st
  /\ OneUtterance (after (clearHistory st)).
Proof.
  destruct st as [ms inp sl tms [q|]]; unfold OneUtterance; cbn;
    repeat split; auto.
Qed.

Lemma handleSend_frame now st :
  selectedLang (after (handleSend now st)) = selectedLang st
  /\ speechSynthesis (after (handleSend now st)) = speechSynthesis st.
Proof.
  unfold handleSend. destruct (jsstring_eqb _ _); split; reflexivity.
Qed.

Lemma OneUtterance_step tbl w e w' :
  step tbl w e = Some w' -> OneUtterance (state w) -> OneUtterance (state w').
Proof.
  destruct w as [st clk]. intros Hstep H. cbn [state] in H.
  destruct e as [s|i|now|now| |i]; simpl in Hstep.
  - injection Hstep as <-. exact H.
  - destruct (nth_error LANGUAGES i); [|discriminate].
    injection Hstep as <-. exact H.
  - destruct (clk <=? now)%N; [|discriminate]. injection Hstep as <-.
    cbn [state]. unfold OneUtterance.
    destruct (handleSend_frame now st) as (_ & ->). exact H.
  - destruct (timers st) as [|t rest]; [discriminate|].
    destruct (_ && _)%bool; [|discriminate]. injection Hstep as <-.
    cbn [state].
    match goal with
    | |- context [after (botCallback tbl now t ?s)] =>
      destruct (botCallback_frame tbl now t s) as (r & _ & _ & _ & _ & _ & Hq)
    end.
    exact Hq.
  - injection Hstep as <-. cbn [state]. apply clearHistory_frame.
  - destruct (nth_error (messages st) i) as [m|]; [|discriminate].
    destruct (role m); [discriminate|]. injection Hstep as <-. cbn [state].
    apply speak_frame.
Qed.

Lemma OneUtterance_run tbl es : forall w w',
  run tbl w es = Some w' -> OneUtterance (state w) -> OneUtterance (state w').
Proof.
  induction es as [|e es IH]; intros w w' H Hs; simpl in H.
  - injection H as <-. exact Hs.
  - destruct (step tbl w e) as [w1|] eqn:E; [|discriminate].
    eapply IH; eauto. eapply OneUtterance_step; eauto.
Qed.

Lemma sampleReplyWorld_reachable : Reachable excerptCaseTable sampleReplyWorld.
Proof. exists true, 0%N, sampleReplyEvents. vm_compute. reflexivity. Qed.

(** X11. Speech never piles up: in every state the component reaches,
    the synthesis queue holds one utterance at most, because [speak]
    cancels what is queued before it speaks and [clearHistory] cancels
    too. *)
Theorem X11_one_utterance_at_most (tbl : CaseTable) (w : World) :
  Reachable tbl w -> OneUtterance (state w).
Proof.
  intros (synthesis & t0 & es & H).
  eapply OneUtterance_run; eauto.
  destruct synthesis; cbn; auto.
Qed.

Lemma X11_one_utterance_at_most_witness :
  OneUtterance (state sampleReplyWorld).
Proof.
  apply (X11_one_utterance_at_most excerptCaseTable sampleReplyWorld).
  exists true, 0%N, sampleReplyEvents. vm_compute. reflexivity.
Defined.

(** X12. [clearHistory] does not cancel the reply that is pending: when
    the timer of a message sent before the chat was cleared runs, its
    reply is computed from the text the callback kept and is shown, alone
    in the cleared chat. *)
Theorem X12_clear_keeps_pending_reply (tbl : CaseTable) (w : World)
    (t : Timer) (rest : list Timer) (now : N) :
  timers (state w) = t :: rest ->
  (clock w <= now)%N ->
  (due t <= now)%N ->
  exists w' reply,
    run tbl w [EClear; ETimer now] = Some w'
    /\ getMockResponse tbl (cleanText t) (timerLang t) = Normal reply
    /\ messages (state w')
       = [ {| id := numberToString (now + 1); role := bot;
              text := reply; lang := Some (timerLang t) |} ]
    /\ timers (state w') = rest.
Proof.
  destruct w as [st clk]. cbn [state clock]. intros Ht Hclk Hdue.
  destruct (clearHistory_frame st) as (Hm & Htm & Hi & Hl & _).
  cbn [run step state clock]. rewrite Htm, Ht.
  apply N.leb_le in Hclk, Hdue. rewrite Hclk, Hdue. cbn [andb].
  match goal with
  | |- context [after (botCallback tbl now t ?s)] =>
    destruct (botCallback_frame tbl now t s)
      as (reply & Hr & Hms & Hts & _)
  end.
  eexists. exists reply. split; [reflexivity|]. split; [exact Hr|].
  cbn [state]. rewrite Hms, Hts. cbn [messages timers]. rewrite Hm.
  split; reflexivity.
Qed.

Lemma X12_clear_keeps_pending_reply_witness :
  exists w' reply,
    run excerptCaseTable sampleWorld [EClear; ETimer 1005] = Some w'
    /\ getMockResponse excerptCaseTable
         (sanitizeInput (utf16 "mail a@b.com")) (utf16 "en-US")
       = Normal reply
    /\ messages (state w')
       = [ {| id := numberToString (1005 + 1); role := bot;
              text := reply; lang := Some (utf16 "en-US") |} ]
    /\ timers (state w') = [].
Proof.
  apply (X12_clear_keeps_pending_reply excerptCaseTable sampleWorld
           {| due := 1005; cleanText := sanitizeInput (utf16 "mail a@b.com");
              timerLang := utf16 "en-US" |} [] 1005).
  - vm_compute. reflexivity.
  - vm_compute. discriminate.
  - vm_compute. discriminate.
Defined.

Lemma botCallback_reply tbl now t st :
  messages (after (botCallback tbl now t st))
  = messages st ++ [replyOf tbl now t].
Proof.
  destruct (botCallback_frame tbl now t st) as (reply & Hr & Hm & _).
  rewrite Hm. unfold replyOf. rewrite Hr. reflexivity.
Qed.

(** Running the callbacks that are due, oldest first. *)
Lemma run_due_timers tbl now' : forall olds w rest,
  timers (state w) = olds ++ rest ->
  Forall (fun t => (due t <= now')%N) olds ->
  (clock w <= now')%N ->
  exists w',
    run tbl w (repeat (ETimer now') (length olds)) = Some w'
    /\ messages (state w')
       = messages (state w) ++ map (replyOf tbl now') olds
    /\ timers (state w') = rest
    /\ selectedLang (state w') = selectedLang (state w)
    /\ (clock w' <= now')%N.
Proof.
  induction olds as [|t olds IH]; intros w rest Ht Hdue Hclk.
  - exists w. cbn [length repeat run map]. rewrite app_nil_r.
    repeat split; auto.
  - inversion Hdue as [|? ? Hd Hrest]; subst.
    destruct w as [st clk]. cbn [state clock] in *.
    cbn [length repeat run step state clock]. rewrite Ht. cbn [app].
    apply N.leb_le in Hclk, Hd. rewrite Hclk, Hd. cbn [andb].
    match goal with
    | |- context [after (botCallback tbl now' t ?s)] =>
      destruct (botCallback_frame tbl now' t s)
        as (_ & _ & _ & Hts & _ & Hsl & _);
      assert (Hms := botCallback_reply tbl now' t s)
    end.
    cbn [messages timers selectedLang] in Hms, Hts, Hsl.
    match goal with
    | |- context [run tbl ?w1 _] =>
      destruct (IH w1 rest) as (w' & Hrun & Hm' & Ht' & Hs' & Hc')
    end; [exact Hts | exact Hrest | cbn [clock]; lia |].
    exists w'. split; [exact Hrun|]. cbn [state] in Hm', Hs'.
    rewrite Hm', Hms, Hs', Hsl, <- app_assoc. cbn [map app].
    repeat split; auto.
Qed.

Lemma TimersDue_step tbl w e w' :
  step tbl w e = Some w' -> TimersDue w -> TimersDue w'.
Proof.
  destruct w as [st clk]. unfold TimersDue. cbn [state clock].
  intros Hstep H.
  destruct e as [s|i|now|now| |i]; simpl in Hstep.
  - injection Hstep as <-. exact H.
  - destruct (nth_error LANGUAGES i); [|discriminate].
    injection Hstep as <-. exact H.
  - destruct (N.leb_spec clk now) as [Hle|]; [|discriminate].
    injection Hstep as <-. cbn [state clock].
    assert (H' : Forall (fun t => (due t <= now + 1000)%N) (timers st)).
    { revert H. apply Forall_impl. intros t Ht. lia. }
    destruct (jsstring_eqb (trim (input st)) []) eqn:E.
    + rewrite handleSend_rejected by exact E. exact H'.
    + destruct (handleSend_accepted now st E) as (_ & _ & ->).
      apply Forall_app. split; [exact H'|].
      constructor; [cbn [due]; lia | constructor].
  - destruct (timers st) as [|t rest] eqn:Et; [discriminate|].
    destruct (N.leb_spec clk now) as [Hle|]; [|discriminate].
    destruct (due t <=? now)%N; [|discriminate].
    cbn [andb] in Hstep. injection Hstep as <-. cbn [state clock].
    match goal with
    | |- context [after (botCallback tbl now t ?s)] =>
      destruct (botCallback_frame tbl now t s) as (_ & _ & _ & -> & _)
    end.
    cbn [timers]. inversion H as [|? ? _ Hrest]; subst.
    revert Hrest. apply Forall_impl. intros t' Ht'. lia.
  - injection Hstep as <-. cbn [state clock].
    destruct (clearHistory_frame st) as (_ & -> & _). exact H.
  - destruct (nth_error (messages st) i) as [m|]; [|discriminate].
    destruct (role m); [discriminate|]. injection Hstep as <-.
    cbn [state clock].
    match goal with
    | |- context [after (speak ?v ?l st)] =>
      destruct (speak_frame v l st) as (_ & -> & _)
    end.
    exact H.
Qed.

Lemma TimersDue_run tbl es : forall w w',
  run tbl w es = Some w' -> TimersDue w -> TimersDue w'.
Proof.
  induction es as [|e es IH]; intros w w' H Hs; simpl in H.
  - injection H as <-. exact Hs.
  - destruct (step tbl w e) as [w1|] eqn:E; [|discriminate].
    eapply IH; eauto. eapply TimersDue_step; eauto.
Qed.

Lemma TimersDue_reachable tbl w : Reachable tbl w -> TimersDue w.
Proof.
  intros (synthesis & t0 & es & H).
  eapply TimersDue_run; eauto. constructor.
Qed.

(** X13. A reply is given in the language that was selected when its
    message was sent, whatever is selected when it arrives.  In any
    state the component reaches, whatever replies are still pending: a
    message sent at [now], a change of language, and then the pending
    callbacks running at [now'], a second or more later, oldest first,
    leave the user message, the replies that were pending (each for the
    text and in the language its own callback kept), and last the reply
    computed from the sanitized text for the language of the send,
    labelled with that language.  The message and its reply have
    different ids. *)
Theorem X13_reply_in_language_of_send (tbl : CaseTable) (w : World)
    (now now' : N) (i : nat) (l : LanguageOption) :
  Reachable tbl w ->
  jsstring_eqb (trim (input (state w))) [] = false ->
  (clock w <= now)%N ->
  nth_error LANGUAGES i = Some l ->
  (now + 1000 <= now')%N ->
  exists w' reply,
    run tbl w
      (ESend now :: ESelectLanguage i
       :: repeat (ETimer now') (S (length (timers (state w)))))
    = Some w'
    /\ getMockResponse tbl (sanitizeInput (input (state w)))
         (code (selectedLang (state w))) = Normal reply
    /\ messages (state w')
       = messages (state w)
         ++ {| id := numberToString now; role := user;
               text := VString (sanitizeInput (input (state w)));
               lang := None |}
            :: map (replyOf tbl now') (timers (state w))
         ++ [ {| id := numberToString (now' + 1); role := bot;
                 text := reply;
                 lang := Some (code (selectedLang (state w))) |} ]
    /\ selectedLang (state w') = l
    /\ timers (state w') = []
    /\ jsstring_eqb (numberToString now) (numberToString (now' + 1)) = false.
Proof.
  intros Hreach Hin Hclk Hl Hdue.
  assert (Hd := TimersDue_reachable tbl w Hreach).
  destruct w as [st clk]. unfold TimersDue in Hd. cbn [state clock] in *.
  destruct (handleSend_accepted now st Hin) as (Hm & _ & Htm).
  destruct (getMockResponse_returns tbl (sanitizeInput (input st))
              (code (selectedLang st))) as [reply Hr].
  cbn [run step state clock]. apply N.leb_le in Hclk. rewrite Hclk, Hl.
  apply N.leb_le in Hclk.
  set (tnew := {| due := now + 1000; cleanText := sanitizeInput (input st);
                  timerLang := code (selectedLang st) |}) in *.
  replace (S (length (timers st))) with (length (timers st ++ [tnew]))
    by (rewrite length_app; simpl; lia).
  match goal with
  | |- context [run tbl ?w2 _] =>
    destruct (run_due_timers tbl now' (timers st ++ [tnew]) w2 [])
      as (w' & Hrun & Hm' & Ht' & Hs' & _)
  end.
  - cbn [state after snd setSelectedLang timers]. rewrite app_nil_r.
    exact Htm.
  - apply Forall_app. split.
    + revert Hd. apply Forall_impl. intros t Ht. lia.
    + constructor; [cbn [due tnew]; lia | constructor].
  - cbn [clock]. lia.
  - exists w', reply. split; [exact Hrun|]. split; [exact Hr|].
    cbn [state after snd setSelectedLang messages selectedLang] in Hm', Hs'.
    rewrite Hm', Hm, map_app, <- app_assoc. cbn [map app].
    unfold replyOf at 2. cbn [cleanText timerLang tnew]. rewrite Hr.
    split; [reflexivity|]. split; [exact Hs'|]. split; [exact Ht'|].
    rewrite numberToString_eqb. apply N.eqb_neq. lia.
Qed.

Lemma X13_reply_in_language_of_send_witness :
  exists w' reply,
    run excerptCaseTable sampleWorld
      (ESend 7 :: ESelectLanguage 1
       :: repeat (ETimer 1007) (S (length (timers (state sampleWorld)))))
    = Some w'
    /\ getMockResponse excerptCaseTable
         (sanitizeInput (input (state sampleWorld)))
         (code (selectedLang (state sampleWorld))) = Normal reply
    /\ messages (state w')
       = messages (state sampleWorld)
         ++ {| id := numberToString 7; role := user;
               text := VString (sanitizeInput (input (state sampleWorld)));
               lang := None |}
            :: map (replyOf excerptCaseTable 1007)
                 (timers (state sampleWorld))
         ++ [ {| id := numberToString (1007 + 1); role := bot;
                 text := reply;
                 lang := Some (code (selectedLang (state sampleWorld))) |} ]
    /\ selectedLang (state w')
       = {| code := utf16 "hi-IN"; name := utf16 "Hindi";
            label := utf16 "हिंदी" |}
    /\ timers (state w') = []
    /\ jsstring_eqb (numberToString 7) (numberToString (1007 + 1)) = false.
Proof.
  apply (X13_reply_in_language_of_send excerptCaseTable sampleWorld 7 1007 1).
  - exists true, 0%N, sampleEvents. vm_compute. reflexivity.
  - vm_compute. reflexivity.
  - vm_compute. discriminate.
  - reflexivity.
  - vm_compute. discriminate.
Defined.

(** X14. The id of a user message is the decimal text of the clock
    reading at its send, and the id of a reply the decimal text of the
    reading at its callback plus one.  So a user message and a reply
    have the same id exactly when the send's reading is the callback's
    reading plus one, two user messages exactly when they were sent at
    the same reading, and two replies exactly when their callbacks ran
    at the same reading. *)
Theorem X14_ids_follow_clock (tbl : CaseTable) (a b : N) (st st' : State)
    (t : Timer) (mu mb : Message) :
  nth_error (messages (after (handleSend a st))) (length (messages st))
  = Some mu ->
  nth_error (messages (after (botCallback tbl b t st')))
    (length (messages st'))
  = Some mb ->
  id mu = numberToString a
  /\ id mb = numberToString (b + 1)
  /\ jsstring_eqb (id mu) (id mb) = (a =? b + 1)%N
  /\ (forall c st2 mu2,
        nth_error (messages (after (handleSend c st2)))
          (length (messages st2)) = Some mu2 ->
        jsstring_eqb (id mu) (id mu2) = (a =? c)%N)
  /\ (forall c t2 st2 mb2,
        nth_error (messages (after (botCallback tbl c t2 st2)))
          (length (messages st2)) = Some mb2 ->
        jsstring_eqb (id mb) (id mb2) = (b =? c)%N).
Proof.
  intros Hu Hb. apply handleSend_new_message in Hu.
  rewrite botCallback_reply, nth_error_app2, Nat.sub_diag in Hb by lia.
  injection Hb as Hb. subst mu mb. cbn [id replyOf].
  split; [reflexivity|]. split; [reflexivity|].
  split; [apply numberToString_eqb|]. split.
  - intros c st2 mu2 H2. apply handleSend_new_message in H2. subst mu2.
    cbn [id]. apply numberToString_eqb.
  - intros c t2 st2 mb2 H2.
    rewrite botCallback_reply, nth_error_app2, Nat.sub_diag in H2 by lia.
    injection H2 as H2. subst mb2. cbn [id replyOf].
    rewrite numberToString_eqb.
    destruct (N.eqb_spec (b + 1) (c + 1)); destruct (N.eqb_spec b c);
      try reflexivity; lia.
Qed.

Lemma X14_ids_follow_clock_witness :
  id {| id := numberToString 1006; role := user;
        text := VString (sanitizeInput (input (state typedWorld)));
        lang := None |} = numberToString 1006
  /\ id (replyOf excerptCaseTable 1005
           {| due := 1005; cleanText := utf16 "hello";
              timerLang := utf16 "en-US" |})
     = numberToString (1005 + 1)
  /\ jsstring_eqb
       (id {| id := numberToString 1006; role := user;
              text := VString (sanitizeInput (input (state typedWorld)));
              lang := None |})
       (id (replyOf excerptCaseTable 1005
              {| due := 1005; cleanText := utf16 "hello";
                 timerLang := utf16 "en-US" |}))
     = (1006 =? 1005 + 1)%N
  /\ (forall c st2 mu2,
        nth_error (messages (after (handleSend c st2)))
          (length (messages st2)) = Some mu2 ->
        jsstring_eqb
          (id {| id := numberToString 1006; role := user;
                 text := VString (sanitizeInput (input (state typedWorld)));
                 lang := None |})
          (id mu2) = (1006 =? c)%N)
  /\ (forall c t2 st2 mb2,
        nth_error (messages (after (botCallback excerptCaseTable c t2 st2)))
          (length (messages st2)) = Some mb2 ->
        jsstring_eqb
          (id (replyOf excerptCaseTable 1005
                 {| due := 1005; cleanText := utf16 "hello";
                    timerLang := utf16 "en-US" |}))
          (id mb2) = (1005 =? c)%N).
Proof.
  apply (X14_ids_follow_clock excerptCaseTable 1006 1005
           (state typedWorld) (state typedWorld)
           {| due := 1005; cleanText := utf16 "hello";
              timerLang := utf16 "en-US" |}).
  - vm_compute. reflexivity.
  - vm_compute. reflexivity.
Defined.

(** ** The replies the component shows *)

Lemma LANGUAGES_supported i l :
  nth_error LANGUAGES i = Some l -> exists b, In (code l, b) responses.
Proof.
  destruct i as [|[|[|i]]]; cbn [nth_error LANGUAGES]; intros H;
    try (injection H as <-).
  - exists enUS. left. reflexivity.
  - exists hiIN. right. left. reflexivity.
  - exists mrIN. right. right. left. reflexivity.
  - destruct i; discriminate.
Qed.

Lemma getMockResponse_supported tbl query l b :
  In (l, b) responses ->
  exists s, getMockResponse tbl query l = Normal (VString s) /\ topicOf b s.
Proof.
  intros H. rewrite getMockResponse_rules, (langResponsesOf_supported l b H).
  cbn [readTopic]. eexists. split; [reflexivity|]. unfold topicOf.
  destruct (matchesPassword tbl query); [auto|].
  destruct (matchesPrivacy tbl query); auto.
Qed.

Lemma RepliesWellFormed_step tbl w e w' :
  step tbl w e = Some w' ->
  RepliesWellFormed (state w) -> RepliesWellFormed (state w').
Proof.
  destruct w as [st clk]. unfold RepliesWellFormed.
  intros Hstep (Hsel & Htm & Hmsg). cbn [state] in Hsel, Htm, Hmsg.
  destruct e as [s|i|now|now| |i]; simpl in Hstep.
  - injection Hstep as <-. repeat split; assumption.
  - destruct (nth_error LANGUAGES i) as [l|] eqn:El; [|discriminate].
    injection Hstep as <-. cbn [state after snd setSelectedLang selectedLang
      timers messages].
    split; [apply (LANGUAGES_supported i l El)|]. split; assumption.
  - destruct (clk <=? now)%N; [|discriminate]. injection Hstep as <-.
    cbn [state].
    destruct (handleSend_frame now st) as (-> & _).
    split; [exact Hsel|].
    destruct (jsstring_eqb (trim (input st)) []) eqn:E.
    + rewrite handleSend_rejected by exact E. split; assumption.
    + destruct (handleSend_accepted now st E) as (-> & _ & ->).
      split.
      * intros t Hin.
        apply in_app_or in Hin as [Hin|[<-|[]]]; [auto | exact Hsel].
      * intros m Hin Hr.
        apply in_app_or in Hin as [Hin|[<-|[]]]; [auto | discriminate].
  - destruct (timers st) as [|t rest] eqn:Et; [discriminate|].
    destruct (_ && _)%bool; [|discriminate]. injection Hstep as <-.
    cbn [state].
    match goal with
    | |- context [after (botCallback tbl now t ?s)] =>
      destruct (botCallback_frame tbl now t s)
        as (reply & Hr & -> & -> & _ & -> & _)
    end.
    cbn [messages timers selectedLang].
    split; [exact Hsel|]. split.
    + intros t' Hin. apply Htm. right. exact Hin.
    + intros m Hin Hrole.
      apply in_app_or in Hin as [Hin|[<-|[]]]; [auto|].
      destruct (Htm t (or_introl eq_refl)) as [b Hb].
      destruct (getMockResponse_supported tbl (cleanText t) (timerLang t) b Hb)
        as (s & Hs & Htopic).
      rewrite Hs in Hr. injection Hr as <-.
      exists (timerLang t), b, s. repeat split; assumption.
  - injection Hstep as <-. cbn [state].
    destruct (clearHistory_frame st) as (-> & -> & _ & -> & _).
    split; [exact Hsel|]. split; [exact Htm|]. intros m [].
  - destruct (nth_error (messages st) i) as [m|]; [|discriminate].
    destruct (role m); [discriminate|]. injection Hstep as <-. cbn [state].
    match goal with
    | |- context [after (speak ?v ?l st)] =>
      destruct (speak_frame v l st) as (-> & -> & _ & -> & _)
    end.
    repeat split; assumption.
Qed.

Lemma RepliesWellFormed_run tbl es : forall w w',
  run tbl w es = Some w' ->
  RepliesWellFormed (state w) -> RepliesWellFormed (state w').
Proof.
  induction es as [|e es IH]; intros w w' H Hs; simpl in H.
  - injection H as <-. exact Hs.
  - destruct (step tbl w e) as [w1|] eqn:E; [|discriminate].
    eapply IH; eauto. eapply RepliesWellFormed_step; eauto.
Qed.

Lemma RepliesWellFormed_initial synthesis :
  RepliesWellFormed (initialState synthesis).
Proof.
  split; [|split].
  - exists enUS. left. reflexivity.
  - intros t [].
  - intros m [].
Qed.

Lemma RepliesWellFormed_reachable tbl w :
  Reachable tbl w -> RepliesWellFormed (state w).
Proof.
  intros (synthesis & t0 & es & H).
  eapply RepliesWellFormed_run; eauto. apply RepliesWellFormed_initial.
Qed.

(** X15. Every reply the component shows is a string of a supported
    language: in every state it reaches, each message of the bot carries
    the code of one of the three bundles and one of the three texts of
    that bundle, and so will each reply still to come.  The component
    only ever passes [getMockResponse] the code of a language of
    [LANGUAGES]. *)
Theorem X15_replies_are_bundle_texts (tbl : CaseTable) (w : World) :
  Reachable tbl w -> RepliesWellFormed (state w).
Proof. apply RepliesWellFormed_reachable. Qed.

Lemma X15_replies_are_bundle_texts_witness :
  RepliesWellFormed (state sampleReplyWorld).
Proof.
  apply (X15_replies_are_bundle_texts excerptCaseTable sampleReplyWorld).
  exists true, 0%N, sampleReplyEvents. vm_compute. reflexivity.
Defined.

Lemma supported_code_nonempty l b :
  In (l, b) responses -> jsstring_eqb l [] = false.
Proof.
  intros [H|[H|[H|[]]]]; injection H as <- _; vm_compute; reflexivity.
Qed.

(** X20. The speaker button reads a reply in the language the reply was
    given in: in a state the component reaches, with speech synthesis
    available, the button of a reply cancels what is queued and queues
    that reply's text with that reply's language code; the [en-US]
    default of the button is never taken, and the chat is left as it
    is. *)
Theorem X20_replay_in_reply_language (tbl : CaseTable) (w : World) (i : nat)
    (m : Message) (q : list Utterance) :
  Reachable tbl w ->
  nth_error (messages (state w)) i = Some m ->
  role m = bot ->
  speechSynthesis (state w) = Some q ->
  exists w' l,
    step tbl w (ESpeak i) = Some w'
    /\ lang m = Some l
    /\ speechSynthesis (state w')
       = Some [ {| utteranceText := text m; utteranceLang := l |} ]
    /\ messages (state w') = messages (state w).
Proof.
  intros Hreach Hnth Hrole Hq.
  destruct (RepliesWellFormed_reachable tbl w Hreach) as (_ & _ & Hmsg).
  destruct (Hmsg m (nth_error_In _ _ Hnth) Hrole)
    as (l & b & s & Hl & Hb & _ & _).
  apply supported_code_nonempty in Hb.
  destruct w as [[ms inp sl tms sq] clk].
  cbn [state messages speechSynthesis] in *. subst sq.
  cbn [step state messages]. rewrite Hnth, Hrole, Hl, Hb.
  eexists. exists l. split; [reflexivity|]. repeat split.
Qed.

Lemma X20_replay_in_reply_language_witness :
  exists w' l,
    step excerptCaseTable sampleReplyWorld (ESpeak 1) = Some w'
    /\ lang {| id := numberToString 1006; role := bot;
               text := VString (password enUS);
               lang := Some (utf16 "en-US") |} = Some l
    /\ speechSynthesis (state w')
       = Some [ {| utteranceText :=
                     text {| id := numberToString 1006; role := bot;
                             text := VString (password enUS);
                             lang := Some (utf16 "en-US") |};
                   utteranceLang := l |} ]
    /\ messages (state w') = messages (state sampleReplyWorld).
Proof.
  apply (X20_replay_in_reply_language excerptCaseTable sampleReplyWorld 1
           {| id := numberToString 1006; role := bot;
              text := VString (password enUS);
              lang := Some (utf16 "en-US") |}
           [ {| utteranceText := VString (password enUS);
                utteranceLang := utf16 "en-US" |} ]).
  - exists true, 0%N, sampleReplyEvents. vm_compute. reflexivity.
  - vm_compute. reflexivity.
  - reflexivity.
  - vm_compute. reflexivity.
Defined.


(** ** Voice capture *)

Lemma voiceStep_world tbl vw e vw' :
  voiceStep tbl vw e = Some vw' ->
  world vw' = world vw \/ exists e', step tbl (world vw) e' = Some (world vw').
Proof.
  destruct e as [e| |i transcript|i|i]; cbn [voiceStep]; intros H.
  - destruct (step tbl (world vw) e) as [w'|] eqn:E; [|discriminate].
    injection H as <-. right. exists e. exact E.
  - injection H as <-. left. unfold toggleRecording.
    destruct (negb (canRecognize vw)); [reflexivity|].
    destruct (isRecording vw); reflexivity.
  - destruct (nth_error (listening vw) i); [|discriminate].
    injection H as <-. right. exists (EInput transcript). reflexivity.
  - destruct (nth_error (listening vw) i); [|discriminate].
    injection H as <-. left. reflexivity.
  - destruct (nth_error (listening vw) i); [|discriminate].
    injection H as <-. left. reflexivity.
Qed.

Lemma voiceRun_world tbl es : forall vw vw',
  voiceRun tbl vw es = Some vw' ->
  exists es', run tbl (world vw) es' = Some (world vw').
Proof.
  induction es as [|e es IH]; intros vw vw' H; cbn [voiceRun] in H.
  - injection H as <-. exists []. reflexivity.
  - destruct (voiceStep tbl vw e) as [vw1|] eqn:E; [|discriminate].
    destruct (IH _ _ H) as [es1 H1].
    destruct (voiceStep_world _ _ _ _ E) as [Hw|[e' He']].
    + exists es1. rewrite <- Hw. exact H1.
    + exists (e' :: es1). cbn [run]. rewrite He'. exact H1.
Qed.

(** X16. Voice capture adds no state of the chat: whatever the
    microphone button and the recognition do, the chat is in a state it
    also reaches with the transcripts typed in, since a transcript only
    ever lands in the input.  So what is dictated is sanitized like what
    is typed: each user message and each pending reply holds a text that
    came out of [sanitizeInput]. *)
Theorem X16_voice_adds_no_state (tbl : CaseTable) (synthesis recognition : bool)
    (t0 : N) (es : list VoiceEvent) (vw : VoiceWorld) :
  voiceRun tbl (initialVoiceWorld synthesis recognition t0) es = Some vw ->
  Reachable tbl (world vw) /\ Sanitized (state (world vw)).
Proof.
  intros H. apply voiceRun_world in H as [es' H].
  assert (R : Reachable tbl (world vw)).
  { exists synthesis, t0, es'. exact H. }
  split; [exact R | apply (Sanitized_reachable tbl _ R)].
Qed.

Lemma X16_voice_adds_no_state_witness :
  Reachable excerptCaseTable (world sampleVoiceWorld)
  /\ Sanitized (state (world sampleVoiceWorld)).
Proof.
  apply (X16_voice_adds_no_state excerptCaseTable true true 0
           sampleVoiceEvents sampleVoiceWorld).
  vm_compute. reflexivity.
Defined.

(** X17. Switching the microphone off does not stop the recognition:
    [toggleRecording] only clears the indicator.  After on and off the
    recognition still listens, its transcript still replaces the input,
    and switching on again starts a second recognition beside it. *)
Theorem X17_off_does_not_stop (tbl : CaseTable) (vw : VoiceWorld)
    (transcript : jsstring) :
  canRecognize vw = true ->
  isRecording vw = false ->
  exists vw',
    voiceRun tbl vw
      [ VToggle; VToggle; VResult (length (listening vw)) transcript; VToggle ]
    = Some vw'
    /\ input (state (world vw')) = transcript
    /\ isRecording vw' = true
    /\ listening vw'
       = listening vw
         ++ [ {| recLang := code (selectedLang (state (world vw)));
                 continuous := false; interimResults := false |};
              {| recLang := code (selectedLang (state (world vw)));
                 continuous := false; interimResults := false |} ].
Proof.
  destruct vw as [[st clk] rec can ls al]. cbn [canRecognize isRecording].
  intros -> ->. cbn [voiceRun voiceStep toggleRecording canRecognize
    isRecording negb listening world alerts state].
  rewrite nth_error_app2 by lia. rewrite Nat.sub_diag. cbn [nth_error].
  cbn [onresult toggleRecording canRecognize isRecording negb listening
    world alerts state clock after snd setInput selectedLang].
  eexists. split; [reflexivity|].
  cbn [world state input isRecording listening].
  rewrite <- app_assoc. repeat split.
Qed.

Lemma X17_off_does_not_stop_witness :
  exists vw',
    voiceRun excerptCaseTable (initialVoiceWorld true true 0)
      [ VToggle; VToggle; VResult 0 (utf16 "hello"); VToggle ]
    = Some vw'
    /\ input (state (world vw')) = utf16 "hello"
    /\ isRecording vw' = true
    /\ listening vw'
       = [ {| recLang := utf16 "en-US";
              continuous := false; interimResults := false |};
           {| recLang := utf16 "en-US";
              continuous := false; interimResults := false |} ].
Proof.
  apply (X17_off_does_not_stop excerptCaseTable
           (initialVoiceWorld true true 0) (utf16 "hello")); reflexivity.
Defined.

(** X18. In a browser without speech recognition the microphone button
    only alerts: each click shows the message once more and changes
    nothing else (no recognition starts, the indicator and the chat stay
    as they are). *)
Theorem X18_unsupported_only_alerts (tbl : CaseTable) (n : nat)
    (vw : VoiceWorld) :
  canRecognize vw = false ->
  voiceRun tbl vw (repeat VToggle n)
  = Some (mkVoiceWorld (world vw) (isRecording vw) false (listening vw)
            (alerts vw ++ repeat NOT_SUPPORTED n)).
Proof.
  revert vw. induction n as [|n IH]; intros vw H.
  - cbn [repeat voiceRun]. rewrite app_nil_r, <- H. destruct vw; reflexivity.
  - cbn [repeat voiceRun voiceStep]. unfold toggleRecording at 1.
    rewrite H. cbn [negb]. rewrite IH by reflexivity.
    cbn [world isRecording listening alerts]. rewrite <- app_assoc.
    reflexivity.
Qed.

Lemma X18_unsupported_only_alerts_witness :
  voiceRun excerptCaseTable (initialVoiceWorld true false 0) (repeat VToggle 2)
  = Some (mkVoiceWorld (world (initialVoiceWorld true false 0))
            (isRecording (initialVoiceWorld true false 0)) false
            (listening (initialVoiceWorld true false 0))
            (alerts (initialVoiceWorld true false 0)
             ++ repeat NOT_SUPPORTED 2)).
Proof.
  apply (X18_unsupported_only_alerts excerptCaseTable 2
           (initialVoiceWorld true false 0)).
  reflexivity.
Defined.

Lemma Forall_removeNth {A} (P : A -> Prop) l : forall i,
  Forall P l -> Forall P (removeNth i l).
Proof.
  induction l as [|x l IH]; intros i H; [destruct i; exact H|].
  inversion H as [|? ? Hx Hl]; subst.
  destruct i as [|i]; cbn [removeNth]; [exact Hl|].
  constructor; [exact Hx | apply IH, Hl].
Qed.

Lemma VoiceWellFormed_step tbl vw e vw' :
  voiceStep tbl vw e = Some vw' ->
  RepliesWellFormed (state (world vw)) ->
  VoiceWellFormed vw -> VoiceWellFormed vw'.
Proof.
  unfold VoiceWellFormed. intros H (Hsel & _) (Hrec & Hall).
  destruct e as [e| |i transcript|i|i]; cbn [voiceStep] in H.
  - destruct (step tbl (world vw) e); [|discriminate].
    injection H as <-. split; assumption.
  - injection H as <-. unfold toggleRecording.
    destruct (canRecognize vw); cbn [negb].
    + destruct (isRecording vw); cbn [isRecording listening].
      * split; [left; reflexivity | exact Hall].
      * split.
        -- right. destruct (listening vw) as [|r rest]; cbn [app]; eauto.
        -- apply Forall_app. split; [exact Hall|].
           constructor; [|constructor]. cbn [recLang continuous interimResults].
           auto.
    + cbn [isRecording listening]. split; assumption.
  - destruct (nth_error (listening vw) i); [|discriminate].
    injection H as <-. split; [left; reflexivity | exact Hall].
  - destruct (nth_error (listening vw) i); [|discriminate].
    injection H as <-. split; [left; reflexivity | exact Hall].
  - destruct (nth_error (listening vw) i); [|discriminate].
    injection H as <-. cbn [isRecording listening onend].
    split; [left; reflexivity | apply Forall_removeNth, Hall].
Qed.

Lemma VoiceWellFormed_run tbl es : forall vw vw',
  voiceRun tbl vw es = Some vw' ->
  RepliesWellFormed (state (world vw)) ->
  VoiceWellFormed vw -> VoiceWellFormed vw'.
Proof.
  induction es as [|e es IH]; intros vw vw' H Hr Hv; cbn [voiceRun] in H.
  - injection H as <-. exact Hv.
  - destruct (voiceStep tbl vw e) as [vw1|] eqn:E; [|discriminate].
    apply (IH _ _ H).
    + destruct (voiceStep_world _ _ _ _ E) as [->|[e' He']]; [exact Hr|].
      apply (RepliesWellFormed_step _ _ _ _ He' Hr).
    + apply (VoiceWellFormed_step _ _ _ _ E Hr Hv).
Qed.

(** X19. While the recording indicator is on, a recognition is
    listening (not conversely); and every recognition that
    listens was set up by [toggleRecording] for a single final result,
    in the language selected when it was started, one of the three
    supported languages. *)
Theorem X19_recognitions_well_formed (tbl : CaseTable)
    (synthesis recognition : bool) (t0 : N) (es : list VoiceEvent)
    (vw : VoiceWorld) :
  voiceRun tbl (initialVoiceWorld synthesis recognition t0) es = Some vw ->
  VoiceWellFormed vw.
Proof.
  intros H. apply (VoiceWellFormed_run _ _ _ _ H).
  - apply RepliesWellFormed_initial.
  - split; [left; reflexivity | constructor].
Qed.

Lemma X19_recognitions_well_formed_witness : VoiceWellFormed sampleVoiceWorld.
Proof.
  apply (X19_recognitions_well_formed excerptCaseTable true true 0
           sampleVoiceEvents sampleVoiceWorld).
  vm_compute. reflexivity.
Defined.
